(** * 360transitions: orientation algebra and viewport tile resolver

    A shallow embedding of [eval/src/include/Quaternion.hpp] and
    [360popularity/src/AdaptionUnit.hpp].

    Scalars.  The C++ type [SCALAR] (and [double]) is modelled by the real
    numbers [R]: every arithmetic operation is the exact real operation and
    no rounding takes place.  Statements that the sources make "within
    tolerance" therefore become exact equalities here.  Division is Rocq's
    total division on [R].

    Constants.  The literals [PI_L] and [PI], which carry pi to the digits
    of their type, are taken to be the real number pi.

    Integers.  [int] tile indices and counters are modelled by [Z]; the
    values that occur (indices of tiles, counts up to 81) are far from the
    range where wrap-around could matter. *)

From stdpp Require Import gmap.
From Stdlib Require Import Reals Lra Lia ZArith List Sorted Psatz.
Import ListNotations.

Local Open Scope R_scope.

(** ** The functions of <cmath> that the sources call *)

Module Cmath.

Definition Rltb (a b : R) : bool := if Rlt_dec a b then true else false.
Definition Rleb (a b : R) : bool := if Rle_dec a b then true else false.
Definition Reqb (a b : R) : bool := if Req_dec_T a b then true else false.

Definition fabs (x : R) : R := Rabs x.

(** [copysign a b]: the magnitude of [a] with the sign of [b]. *)
Definition copysign (a b : R) : R :=
  if Rltb b 0 then - Rabs a else Rabs a.

(** [atan2 y x]: the angle of the point [(x, y)], in [(-PI, PI]]. *)
Definition atan2 (y x : R) : R :=
  if Rltb 0 x then atan (y / x)
  else if Rltb x 0 then
         if Rltb y 0 then atan (y / x) - PI else atan (y / x) + PI
  else if Rltb 0 y then PI / 2
  else if Rltb y 0 then - (PI / 2)
  else 0.

(** Rounding towards zero, as [fmod] does with the quotient. *)
Definition trunc (x : R) : Z :=
  if Rltb x 0 then Zceil x else Zfloor x.

(** [fmod a b = a - b * trunc (a / b)]; the result has the sign of [a]. *)
Definition fmod (a b : R) : R := a - b * IZR (trunc (a / b)).

(** [std::pow] with an integral exponent. *)
Definition pow (x : R) (n : nat) : R := x ^ n.

(** [std::log] *)
Definition log (x : R) : R := ln x.

End Cmath.

(** ** Vector.hpp *)

Module IMT.

(** Modelled from the spec: [Vector.hpp] is not part of the sources.  The
    spec describes the Cartesian vector as a value type of three scalar
    components with addition, subtraction, scalar scaling, dot product,
    cross product and Euclidean norm; [Quaternion.hpp] uses [*] between
    two vectors for the dot product and [^] for the cross product. *)
Record VectorCartesian : Type := mkVectorCartesian
  { GetX : R; GetY : R; GetZ : R }.

Module Vec.

(** Modelled from the spec: [VectorCartesian()], the vector of [Vector.hpp]
    with three zero components. *)
Definition zero : VectorCartesian := mkVectorCartesian 0 0 0.

(** Modelled from the spec: addition [a + b] of [Vector.hpp]. *)
Definition add (a b : VectorCartesian) : VectorCartesian :=
  mkVectorCartesian (GetX a + GetX b) (GetY a + GetY b) (GetZ a + GetZ b).

(** Modelled from the spec: subtraction [a - b] of [Vector.hpp]. *)
Definition sub (a b : VectorCartesian) : VectorCartesian :=
  mkVectorCartesian (GetX a - GetX b) (GetY a - GetY b) (GetZ a - GetZ b).

(** Modelled from the spec: negation [-a] of [Vector.hpp]. *)
Definition neg (a : VectorCartesian) : VectorCartesian :=
  mkVectorCartesian (- GetX a) (- GetY a) (- GetZ a).

(** Modelled from the spec: scalar scaling of [Vector.hpp], written [s * v]
    and [v * s] in the sources. *)
Definition scale (s : R) (a : VectorCartesian) : VectorCartesian :=
  mkVectorCartesian (s * GetX a) (s * GetY a) (s * GetZ a).

(** Modelled from the spec: division [v / s] of [Vector.hpp] by a scalar,
    the inverse scaling. *)
Definition div (a : VectorCartesian) (s : R) : VectorCartesian :=
  mkVectorCartesian (GetX a / s) (GetY a / s) (GetZ a / s).

(** Modelled from the spec: the dot product of [Vector.hpp], written
    [a * b] and [a.DotProduct(b)] in the sources. *)
Definition DotProduct (a b : VectorCartesian) : R :=
  GetX a * GetX b + GetY a * GetY b + GetZ a * GetZ b.

(** Modelled from the spec: the cross product of [Vector.hpp], written
    [a ^ b] in the sources. *)
Definition cross (a b : VectorCartesian) : VectorCartesian :=
  mkVectorCartesian (GetY a * GetZ b - GetZ a * GetY b)
                    (GetZ a * GetX b - GetX a * GetZ b)
                    (GetX a * GetY b - GetY a * GetX b).

(** Modelled from the spec: the Euclidean norm [a.Norm()] of [Vector.hpp]. *)
Definition Norm (a : VectorCartesian) : R := sqrt (DotProduct a a).

(** Modelled from the spec: the comparison [a == b] of [Vector.hpp],
    component by component. *)
Definition eqb (a b : VectorCartesian) : bool :=
  Cmath.Reqb (GetX a) (GetX b) && Cmath.Reqb (GetY a) (GetY b)
  && Cmath.Reqb (GetZ a) (GetZ b).

End Vec.

(** Modelled from the spec: the spherical view of a vector ([Vector.hpp],
    not part of the sources) exposes a polar angle theta and an azimuthal
    angle phi computed from a Cartesian vector.  Its formulas are not in
    the sources, so the conversion is an interface. *)
Class VectorSpherical : Type := mkVectorSpherical
  { GetTheta : VectorCartesian -> R;
    GetPhi : VectorCartesian -> R }.

(** ** Quaternion.hpp *)

(** [SCALAR PI_L = 3.14159265358979323846...L] *)
Definition PI_L : R := PI.

Record Quaternion : Type := mkQuaternion
  { m_w : R; m_v : VectorCartesian; m_isNormalized : bool }.

Module Quat.

(** *** Constructors: all of them start with the flag unset *)

Definition Quaternion_void : Quaternion := mkQuaternion 0 Vec.zero false.
Definition Quaternion_wv (w : R) (v : VectorCartesian) : Quaternion :=
  mkQuaternion w v false.
Definition Quaternion_wxyz (w x y z : R) : Quaternion :=
  mkQuaternion w (mkVectorCartesian x y z) false.
Definition Quaternion_w (w : R) : Quaternion :=
  mkQuaternion w Vec.zero false.
Definition Quaternion_v (v : VectorCartesian) : Quaternion :=
  mkQuaternion 0 v false.

Definition DotProduct (p q : Quaternion) : R :=
  m_w p * m_w q + Vec.DotProduct (m_v p) (m_v q).

Definition Norm (q : Quaternion) : R := sqrt (DotProduct q q).

(** *** Operators *)

Definition add (p q : Quaternion) : Quaternion :=
  Quaternion_wv (m_w p + m_w q) (Vec.add (m_v p) (m_v q)).
Definition add_vec (p : Quaternion) (v : VectorCartesian) : Quaternion :=
  add p (Quaternion_v v).
Definition sub (p q : Quaternion) : Quaternion :=
  Quaternion_wv (m_w p - m_w q) (Vec.sub (m_v p) (m_v q)).
Definition neg (p : Quaternion) : Quaternion :=
  Quaternion_wv (- m_w p) (Vec.neg (m_v p)).
Definition sub_vec (p : Quaternion) (v : VectorCartesian) : Quaternion :=
  sub p (Quaternion_v v).
Definition mul (p q : Quaternion) : Quaternion :=
  Quaternion_wv
    (m_w p * m_w q - Vec.DotProduct (m_v p) (m_v q))
    (Vec.add (Vec.add (Vec.scale (m_w p) (m_v q))
                      (Vec.scale (m_w q) (m_v p)))
             (Vec.cross (m_v p) (m_v q))).
Definition mul_vec (p : Quaternion) (v : VectorCartesian) : Quaternion :=
  mul p (Quaternion_v v).
Definition scale (p : Quaternion) (s : R) : Quaternion :=
  Quaternion_wv (m_w p * s) (Vec.scale s (m_v p)).
Definition div (p : Quaternion) (s : R) : Quaternion :=
  Quaternion_wv (m_w p / s) (Vec.div (m_v p) s).

(** [operator==]: the flag takes no part in the comparison. *)
Definition eqb (p q : Quaternion) : bool :=
  Cmath.Reqb (m_w p) (m_w q) && Vec.eqb (m_v p) (m_v q).
Definition neqb (p q : Quaternion) : bool := negb (eqb p q).

(** [Normalize] mutates [*this]; the embedding returns the new value.
    The assignment [*this = *this / Norm()] copies an unset flag, which
    the next statement sets. *)
Definition Normalize (q : Quaternion) : Quaternion :=
  if negb (m_isNormalized q) then
    let q' := div q (Norm q) in
    mkQuaternion (m_w q') (m_v q') true
  else q.

Definition Normalized (q : Quaternion) : Quaternion :=
  if negb (m_isNormalized q) then div q (Norm q) else q.

Definition FromEuler (yaw pitch roll : R) : Quaternion :=
  let t0 := cos (yaw * 0.5) in
  let t1 := sin (yaw * 0.5) in
  let t2 := cos (roll * 0.5) in
  let t3 := sin (roll * 0.5) in
  let t4 := cos (pitch * 0.5) in
  let t5 := sin (pitch * 0.5) in
  let q := Quaternion_wv (t0 * t2 * t4 + t1 * t3 * t5)
             (mkVectorCartesian (t0 * t3 * t4 - t1 * t2 * t5)
                                (t0 * t2 * t5 + t1 * t3 * t4)
                                (t1 * t2 * t4 - t0 * t3 * t5)) in
  Normalize q.

(** The pitch sine of [ToEuler]. *)
Definition sinp (q : Quaternion) : R :=
  2.0 * (m_w q * GetY (m_v q) - GetZ (m_v q) * GetX (m_v q)).

Definition ToEuler (q : Quaternion) : VectorCartesian :=
  let x := GetX (m_v q) in
  let y := GetY (m_v q) in
  let z := GetZ (m_v q) in
  let sinr := 2.0 * (m_w q * x + y * z) in
  let cosr := 1.0 - 2.0 * (x * x + y * y) in
  let roll := Cmath.atan2 sinr cosr in
  let sinp := 2.0 * (m_w q * y - z * x) in
  let pitch :=
    if Cmath.Rleb 1 (Cmath.fabs sinp)
    then Cmath.copysign (PI_L / 2) sinp
    else asin sinp in
  let siny := 2.0 * (m_w q * z + x * y) in
  let cosy := 1.0 - 2.0 * (y * y + z * z) in
  let yaw := Cmath.atan2 siny cosy in
  mkVectorCartesian roll pitch yaw.

Definition GetW (q : Quaternion) : R := m_w q.
Definition GetV (q : Quaternion) : VectorCartesian := m_v q.

Definition IsPur (q : Quaternion) : bool := Cmath.Reqb (m_w q) 0.
Definition Conj (q : Quaternion) : Quaternion :=
  Quaternion_wv (m_w q) (Vec.neg (m_v q)).
Definition Inv (q : Quaternion) : Quaternion :=
  if m_isNormalized q then Conj q
  else div (Conj q) (Cmath.pow (Norm q) 2).
Definition Rotation (q : Quaternion) (v : VectorCartesian)
  : VectorCartesian :=
  if m_isNormalized q then GetV (mul (mul_vec q v) (Conj q))
  else GetV (div (mul (mul_vec q v) (Conj q)) (Cmath.pow (Norm q) 2)).

Definition Exp (q : Quaternion) : Quaternion :=
  Quaternion_wv
    (cos (Vec.Norm (m_v q)) * exp (m_w q))
    (if negb (Cmath.Reqb (Vec.Norm (m_v q)) 0)
     then Vec.scale (sin (Vec.Norm (m_v q)))
                    (Vec.div (m_v q) (Vec.Norm (m_v q)))
     else m_v q).

Definition Log (q : Quaternion) : Quaternion :=
  Quaternion_wv
    (Cmath.log (Norm q))
    (if negb (Cmath.Reqb (Vec.Norm (m_v q)) 0)
        && negb (Cmath.Reqb (Norm q) 0)
     then Vec.scale (acos (m_w q / Norm q))
                    (Vec.div (m_v q) (Vec.Norm (m_v q)))
     else m_v q).

Definition Distance (q1 q2 : Quaternion) : R := Norm (sub q2 q1).

Definition OrthodromicDistance (q1 q2 : Quaternion) : R :=
  let origine := mkVectorCartesian 1 0 0 in
  let p1 := Quaternion_v (Rotation q1 origine) in
  let p2 := Quaternion_v (Rotation q2 origine) in
  let p := mul p1 p2 in
  Cmath.atan2 (Vec.Norm (m_v p)) (- m_w p).

Definition pow (q : Quaternion) (k : R) : Quaternion :=
  Exp (scale (Log q) k).

Definition SLERP (q1 q2 : Quaternion) (k : R) : Quaternion :=
  if Cmath.Rltb (DotProduct q1 q2) 0
  then mul q1 (pow (mul (Inv q1) (neg q2)) k)
  else mul q1 (pow (mul (Inv q1) q2) k).

Definition QuaternionFromAngleAxis (theta : R) (u : VectorCartesian)
  : Quaternion :=
  Quaternion_wv (cos (theta / 2))
                (Vec.scale (sin (theta / 2)) (Vec.div u (Vec.Norm u))).

(** The two arguments are passed by value and updated in place; the
    embedding rebinds the name at each assignment. *)
Definition AverageAngularVelocity (q1 q2 : Quaternion) (deltaT : R)
  : VectorCartesian :=
  let q2 := if Cmath.Rltb (DotProduct q1 q2) 0 then neg q2 else q2 in
  let q1 :=
    if negb (IsPur q1) then
      let q1 := if negb (m_isNormalized q1) then Normalize q1 else q1 in
      Quaternion_v (Rotation q1 (mkVectorCartesian 1 0 0))
    else q1 in
  let q2 :=
    if negb (IsPur q2) then
      let q2 := if negb (m_isNormalized q2) then Normalize q2 else q2 in
      Quaternion_v (Rotation q2 (mkVectorCartesian 1 0 0))
    else q2 in
  let deltaQ := sub q2 q1 in
  let W := mul (scale deltaQ (2.0 / deltaT)) (Inv q1) in
  m_v W.

End Quat.

End IMT.

(** ** mpd.h *)

Module DASH.

(** Modelled from the spec: [mpd.h] is not part of the sources.  A tile
    descriptor carries a rectangle [(x, y, w, h)] in frame pixel units and
    the tiling multipliers [(th, tv)]; the manifest lists the descriptors
    in declaration order. *)
Record SRD : Type := mkSRD
  { x : Z; y : Z; w : Z; h : Z; th : Z; tv : Z }.

End DASH.

(** ** std::map with keys of type double *)

Module StdMap.

Section WithValue.

Context {V : Type}.

(** A map is the list of its entries in ascending key order.

    [m[k]] used as an lvalue, followed by an update [f] of the mapped
    value; an absent key is entered first ([f None]). *)
Fixpoint update (k : R) (f : option V -> V) (m : list (R * V))
  : list (R * V) :=
  match m with
  | [] => [(k, f None)]
  | (k', v') :: m' =>
      if Cmath.Rltb k k' then (k, f None) :: (k', v') :: m'
      else if Cmath.Rltb k' k then (k', v') :: update k f m'
      else (k', f (Some v')) :: m'
  end.

(** The invariant of the container: keys in strictly ascending order. *)
Definition ascending (m : list (R * V)) : Prop :=
  StronglySorted (fun a b => fst a < fst b) m.

(** [m.lower_bound(k)]: the first entry whose key is not less than [k];
    [None] stands for [m.end()]. *)
Definition lower_bound (k : R) (m : list (R * V)) : option (R * V) :=
  List.find (fun e => negb (Cmath.Rltb (fst e) k)) m.

End WithValue.

End StdMap.

(** ** AdaptionUnit.hpp *)

Module AdaptionUnit.

Definition SAMPLERES : nat := 8.
Definition SAMPLEPOINTS : nat := (SAMPLERES + 1) * (SAMPLERES + 1).

(** [float PI = 3.14159265358979323846...L] *)
Definition PI : R := Rtrigo1.PI.

Definition monocular_horizontal : R := 92.0.
Definition monocular_vertical : R := 92.0.

Definition maxHDist : R := 2 * tan (monocular_horizontal * PI / 180.0 / 2.0).
Definition maxVDist : R := 2 * tan (monocular_vertical * PI / 180.0 / 2.0).

Record NormalizedCoordinate : Type := mkNormalizedCoordinate
  { x : R; y : R }.

(** The members that the resolver reads; [mpd] and [tileQuality] are not
    used after the constructor. *)
Record AdaptionUnit : Type := mkAdaptionUnit
  { normalizedCoordTileMapping : list (R * list (R * Z));
    samplePoints : list NormalizedCoordinate }.

(** [normalizedCoordTileMapping[X][Y] = i] *)
Definition assign_tile (m : list (R * list (R * Z))) (X Y : R) (i : Z)
  : list (R * list (R * Z)) :=
  StdMap.update X
    (fun col => StdMap.update Y (fun _ => i) (default [] col)) m.

(** The first loop of the constructor, from index [i] on. *)
Fixpoint fill_mapping (frameWidth frameHeight : Z)
    (adaptationSets : list DASH.SRD) (i : Z)
    (m : list (R * list (R * Z))) : list (R * list (R * Z)) :=
  match adaptationSets with
  | [] => m
  | srd :: rest =>
      let normalizedCoordX :=
        IZR (DASH.x srd + DASH.w srd) / IZR frameWidth in
      let normalizedCoordY :=
        IZR (DASH.y srd + DASH.h srd) / IZR frameHeight in
      fill_mapping frameWidth frameHeight rest (i + 1)
        (assign_tile m normalizedCoordX normalizedCoordY i)
  end.

(** The second loop of the constructor: entry [i * (SAMPLERES + 1) + j]
    of the array is the point [(i / SAMPLERES, j / SAMPLERES)]. *)
Definition fill_samples : list NormalizedCoordinate :=
  flat_map
    (fun i =>
       List.map
         (fun j => mkNormalizedCoordinate (INR i * (1.0 / INR SAMPLERES))
                                          (INR j * (1.0 / INR SAMPLERES)))
         (seq 0 (SAMPLERES + 1)))
    (seq 0 (SAMPLERES + 1)).

(** The constructor; [None] where it reads [adaptationSets[0]] of an
    empty manifest. *)
Definition new (adaptationSets : list DASH.SRD) : option AdaptionUnit :=
  match adaptationSets with
  | [] => None
  | srd :: _ =>
      let frameWidth := (DASH.w srd * DASH.th srd)%Z in
      let frameHeight := (DASH.h srd * DASH.tv srd)%Z in
      Some (mkAdaptionUnit
              (fill_mapping frameWidth frameHeight adaptationSets 0 [])
              fill_samples)
  end.

(** [None] where the code dereferences an [end()] iterator. *)
Definition mapCoordToTile (au : AdaptionUnit) (coord : NormalizedCoordinate)
  : option Z :=
  match StdMap.lower_bound (x coord) (normalizedCoordTileMapping au) with
  | Some (_, col) =>
      match StdMap.lower_bound (y coord) col with
      | Some (_, tile) => Some tile
      | None => None
      end
  | None => None
  end.

(** The viewing ray of a sample before the head rotation is applied. *)
Definition coordBefRot (viewportCoord : NormalizedCoordinate)
  : IMT.VectorCartesian :=
  let u := (x viewportCoord - 0.5) * (2 * maxHDist) in
  let v := (0.5 - y viewportCoord) * (2 * maxVDist) in
  let c := IMT.mkVectorCartesian 1 u v in
  IMT.Vec.div c (IMT.Vec.Norm c).

Definition fromViewportCoordToEquirectCoord `{IMT.VectorSpherical}
    (headRotation : IMT.Quaternion) (viewportCoord : NormalizedCoordinate)
  : NormalizedCoordinate :=
  let pixel3dPolar := IMT.Quat.Rotation headRotation
                        (coordBefRot viewportCoord) in
  mkNormalizedCoordinate
    (1.0 - Cmath.fmod (0.75 + IMT.GetTheta pixel3dPolar / (2.0 * PI)) 1.0)
    (IMT.GetPhi pixel3dPolar / PI).

(** [tileVisibilityMap[tile]++] *)
Definition increment (tileVisibilityMap : gmap Z Z) (tile : Z)
  : gmap Z Z :=
  <[tile := (default 0 (tileVisibilityMap !! tile) + 1)%Z]>
    tileVisibilityMap.

(** The loop of [computeTileVisibility]: [n] more iterations from index
    [j] on. *)
Fixpoint visibility_loop `{IMT.VectorSpherical} (au : AdaptionUnit)
    (headRotation : IMT.Quaternion) (n j : nat)
    (tileVisibilityMap : gmap Z Z) : option (gmap Z Z) :=
  match n with
  | O => Some tileVisibilityMap
  | S n' =>
      match samplePoints au !! j with
      | Some p =>
          match mapCoordToTile au
                  (fromViewportCoordToEquirectCoord headRotation p) with
          | Some tile =>
              visibility_loop au headRotation n' (S j)
                (increment tileVisibilityMap tile)
          | None => None
          end
      | None => None
      end
  end.

Definition computeTileVisibility `{IMT.VectorSpherical} (au : AdaptionUnit)
    (headRotation : IMT.Quaternion) : option (gmap Z Z) :=
  visibility_loop au headRotation SAMPLEPOINTS 0 ∅.

(** The sum of the counts of a histogram. *)
Definition total (tileVisibilityMap : gmap Z Z) : Z :=
  map_fold (fun _ c acc => (c + acc)%Z) 0%Z tileVisibilityMap.

End AdaptionUnit.

(** ** Definitions used by the statements *)

Import IMT.

(** The viewing ray as the specification words it: the offsets from the
    centre are scaled by [2 * tan (fov / 2)] with [fov / 2] = 46 degrees. *)
Definition spec_coordBefRot (p : AdaptionUnit.NormalizedCoordinate)
  : VectorCartesian :=
  let factor := 2 * tan (46 * PI / 180) in
  let u := (AdaptionUnit.x p - 0.5) * factor in
  let v := (0.5 - AdaptionUnit.y p) * factor in
  let c := mkVectorCartesian 1 u v in
  Vec.div c (Vec.Norm c).

(** The quaternions that the public constructors and operations produce.
    [Normalize] is applied to quaternions of non-zero norm only. *)
Inductive produced : Quaternion -> Prop :=
| produced_void : produced Quat.Quaternion_void
| produced_wv w v : produced (Quat.Quaternion_wv w v)
| produced_wxyz w x y z : produced (Quat.Quaternion_wxyz w x y z)
| produced_w w : produced (Quat.Quaternion_w w)
| produced_v v : produced (Quat.Quaternion_v v)
| produced_FromEuler yaw pitch roll :
    produced (Quat.FromEuler yaw pitch roll)
| produced_add p q : produced p -> produced q -> produced (Quat.add p q)
| produced_add_vec p v : produced p -> produced (Quat.add_vec p v)
| produced_sub p q : produced p -> produced q -> produced (Quat.sub p q)
| produced_neg p : produced p -> produced (Quat.neg p)
| produced_sub_vec p v : produced p -> produced (Quat.sub_vec p v)
| produced_mul p q : produced p -> produced q -> produced (Quat.mul p q)
| produced_mul_vec p v : produced p -> produced (Quat.mul_vec p v)
| produced_scale p s : produced p -> produced (Quat.scale p s)
| produced_div p s : produced p -> produced (Quat.div p s)
| produced_Normalize q :
    produced q -> Quat.Norm q <> 0 -> produced (Quat.Normalize q)
| produced_Normalized q : produced q -> produced (Quat.Normalized q)
| produced_Conj q : produced q -> produced (Quat.Conj q)
| produced_Inv q : produced q -> produced (Quat.Inv q)
| produced_Exp q : produced q -> produced (Quat.Exp q)
| produced_Log q : produced q -> produced (Quat.Log q)
| produced_pow q k : produced q -> produced (Quat.pow q k)
| produced_SLERP q1 q2 k :
    produced q1 -> produced q2 -> produced (Quat.SLERP q1 q2 k)
| produced_QuaternionFromAngleAxis theta u :
    produced (Quat.QuaternionFromAngleAxis theta u).

(** The recorded boundaries reach 1.0 in both axes: some column of the index
    has an X boundary of at least 1, and every column has a Y boundary of at
    least 1. *)
Definition reaches_one (m : list (R * list (R * Z))) : Prop :=
  Exists (fun e => 1 <= fst e) m /\
  Forall (fun e => Exists (fun e' => 1 <= fst e') (snd e)) m.

(** A spherical view with the usual formulas: the angle of [(x, y)] and the
    angle from the z axis. *)
Definition spherical_example : VectorSpherical :=
  mkVectorSpherical
    (fun v => Cmath.atan2 (GetY v) (GetX v))
    (fun v => acos (GetZ v / Vec.Norm v)).

(** A layout of one tile that covers the whole frame. *)
Definition single_tile : list DASH.SRD := [DASH.mkSRD 0 0 1 1 1 1].

Definition single_tile_unit : AdaptionUnit.AdaptionUnit :=
  AdaptionUnit.mkAdaptionUnit
    (AdaptionUnit.fill_mapping 1 1 single_tile 0 [])
    AdaptionUnit.fill_samples.

(** The identity orientation. *)
Definition identity_rotation : Quaternion := Quat.Quaternion_wxyz 1 0 0 0.

(** The free operators of [Quaternion.hpp], after the class. *)
Module QuatOps.

(** [s + q] *)
Definition scalar_add (s : R) (q : Quaternion) : Quaternion :=
  Quat.add (Quat.Quaternion_w s) q.
(** [s - q] *)
Definition scalar_sub (s : R) (q : Quaternion) : Quaternion :=
  Quat.sub (Quat.Quaternion_w s) q.
(** [v + q] *)
Definition vec_add (v : VectorCartesian) (q : Quaternion) : Quaternion :=
  Quat.add (Quat.Quaternion_v v) q.
(** [v - q] *)
Definition vec_sub (v : VectorCartesian) (q : Quaternion) : Quaternion :=
  Quat.sub (Quat.Quaternion_v v) q.
(** [v + s] *)
Definition vec_add_scalar (v : VectorCartesian) (s : R) : Quaternion :=
  Quat.add (Quat.Quaternion_v v) (Quat.Quaternion_w s).
(** [v - s] *)
Definition vec_sub_scalar (v : VectorCartesian) (s : R) : Quaternion :=
  Quat.sub (Quat.Quaternion_v v) (Quat.Quaternion_w s).
(** [s * q] *)
Definition scalar_mul (s : R) (q : Quaternion) : Quaternion :=
  Quat.scale q s.
(** [v * q] *)
Definition vec_mul (v : VectorCartesian) (q : Quaternion) : Quaternion :=
  Quat.mul (Quat.Quaternion_v v) q.
(** [q * v] *)
Definition mul_vec (q : Quaternion) (v : VectorCartesian) : Quaternion :=
  Quat.mul q (Quat.Quaternion_v v).

End QuatOps.

(** The number of samples of the grid that a head rotation sends to a
    tile. *)
Definition landing `{VectorSpherical} (au : AdaptionUnit.AdaptionUnit)
    (headRotation : Quaternion) (tile : Z)
    (points : list AdaptionUnit.NormalizedCoordinate) : nat :=
  length
    (List.filter
       (fun p =>
          bool_decide
            (AdaptionUnit.mapCoordToTile au
               (AdaptionUnit.fromViewportCoordToEquirectCoord headRotation p)
             = Some tile))
       points).

(** The corner that the constructor records for a tile of a layout: its
    bottom-right corner over the frame size taken from the first tile. *)
Definition recorded_corner (adaptationSets : list DASH.SRD) (srd : DASH.SRD)
  : AdaptionUnit.NormalizedCoordinate :=
  let first := List.hd srd adaptationSets in
  AdaptionUnit.mkNormalizedCoordinate
    (IZR (DASH.x srd + DASH.w srd) / IZR (DASH.w first * DASH.th first))
    (IZR (DASH.y srd + DASH.h srd) / IZR (DASH.h first * DASH.tv first)).

(** The tile numbers held by an index. *)
Definition tiles_below (n : Z) (m : list (R * list (R * Z))) : Prop :=
  Forall (fun e => Forall (fun e' => (0 <= snd e' < n)%Z) (snd e)) m.


(** A layout of two tiles side by side. *)
Definition two_tiles : list DASH.SRD :=
  [DASH.mkSRD 0 0 1 1 2 1; DASH.mkSRD 1 0 1 1 2 1].

Definition two_tiles_unit : AdaptionUnit.AdaptionUnit :=
  AdaptionUnit.mkAdaptionUnit
    (AdaptionUnit.fill_mapping 2 1 two_tiles 0 [])
    AdaptionUnit.fill_samples.

(** The hypothesis of the sum property as the specification words it: the
    recorded boundaries reach 1.0 in both axes, that is, some X boundary
    and some Y boundary of the index are at least 1. *)
Definition boundaries_reach_one (m : list (R * list (R * Z))) : Prop :=
  Exists (fun e => 1 <= fst e) m /\
  Exists (fun e => Exists (fun e' => 1 <= fst e') (snd e)) m.

(** A layout of a 2 x 4 frame that is not a grid: two tiles of 1 x 1 on
    top and one tile of 2 x 3 below them. *)
Definition irregular_tiles : list DASH.SRD :=
  [DASH.mkSRD 0 0 1 1 2 4; DASH.mkSRD 1 0 1 1 2 4; DASH.mkSRD 0 1 2 3 2 4].

Definition irregular_unit : AdaptionUnit.AdaptionUnit :=
  AdaptionUnit.mkAdaptionUnit
    (AdaptionUnit.fill_mapping 2 4 irregular_tiles 0 [])
    AdaptionUnit.fill_samples.

(** A grid of 2 x 2 equal tiles. *)
Definition grid_tiles : list DASH.SRD :=
  [DASH.mkSRD 0 0 1 1 2 2; DASH.mkSRD 1 0 1 1 2 2;
   DASH.mkSRD 0 1 1 1 2 2; DASH.mkSRD 1 1 1 1 2 2].

Definition grid_unit : AdaptionUnit.AdaptionUnit :=
  AdaptionUnit.mkAdaptionUnit
    (AdaptionUnit.fill_mapping 2 2 grid_tiles 0 [])
    AdaptionUnit.fill_samples.

(** * Properties *)


(** ** Comparisons and square roots *)

Lemma Rltb_true (a b : R) : a < b -> Cmath.Rltb a b = true.
Proof. intros H. unfold Cmath.Rltb. destruct (Rlt_dec a b); [reflexivity | contradiction]. Qed.

Lemma Rltb_false (a b : R) : b <= a -> Cmath.Rltb a b = false.
Proof. intros H. unfold Cmath.Rltb. destruct (Rlt_dec a b); [lra | reflexivity]. Qed.

Lemma Rleb_true (a b : R) : a <= b -> Cmath.Rleb a b = true.
Proof. intros H. unfold Cmath.Rleb. destruct (Rle_dec a b); [reflexivity | contradiction]. Qed.

Lemma Rleb_false (a b : R) : b < a -> Cmath.Rleb a b = false.
Proof. intros H. unfold Cmath.Rleb. destruct (Rle_dec a b); [lra | reflexivity]. Qed.

Lemma Reqb_true (a b : R) : a = b -> Cmath.Reqb a b = true.
Proof. intros H. unfold Cmath.Reqb. destruct (Req_dec_T a b); [reflexivity | contradiction]. Qed.

Lemma Reqb_false (a b : R) : a <> b -> Cmath.Reqb a b = false.
Proof. intros H. unfold Cmath.Reqb. destruct (Req_dec_T a b); [contradiction | reflexivity]. Qed.

Lemma Vec_dot_self_nonneg (v : VectorCartesian) : 0 <= Vec.DotProduct v v.
Proof. unfold Vec.DotProduct. nra. Qed.

Lemma Quat_dot_self_nonneg (q : Quaternion) : 0 <= Quat.DotProduct q q.
Proof. unfold Quat.DotProduct, Vec.DotProduct. nra. Qed.

Lemma sqrt_eq_1 (d : R) : 0 <= d -> sqrt d = 1 -> d = 1.
Proof.
  intros Hd H. rewrite <- (sqrt_sqrt d Hd), H. ring.
Qed.

Lemma Quat_norm_1_dot (q : Quaternion) :
  Quat.Norm q = 1 -> Quat.DotProduct q q = 1.
Proof. apply sqrt_eq_1, Quat_dot_self_nonneg. Qed.

Lemma Quat_norm_sqr (q : Quaternion) :
  Cmath.pow (Quat.Norm q) 2 = Quat.DotProduct q q.
Proof.
  unfold Cmath.pow, Quat.Norm. simpl. rewrite Rmult_1_r.
  apply sqrt_sqrt, Quat_dot_self_nonneg.
Qed.

Lemma Vec_norm_sqr (v : VectorCartesian) :
  Vec.Norm v * Vec.Norm v = Vec.DotProduct v v.
Proof. apply sqrt_sqrt, Vec_dot_self_nonneg. Qed.

Lemma Vec_eq (a b : VectorCartesian) :
  GetX a = GetX b -> GetY a = GetY b -> GetZ a = GetZ b -> a = b.
Proof. destruct a, b; simpl; intros; subst; reflexivity. Qed.

Lemma Quat_eq (p q : Quaternion) :
  m_w p = m_w q -> m_v p = m_v q -> m_isNormalized p = m_isNormalized q ->
  p = q.
Proof. destruct p, q; simpl; intros; subst; reflexivity. Qed.

(** The decimal literals of the sources, as fractions. *)
Lemma decimal_2_0 : 2.0 = 2.
Proof. lra. Qed.
Lemma decimal_1_0 : 1.0 = 1.
Proof. lra. Qed.
Lemma decimal_0_5 : 0.5 = / 2.
Proof. lra. Qed.
Lemma decimal_0_75 : 0.75 = 3 / 4.
Proof. lra. Qed.
Lemma decimal_92_0 : 92.0 = 92.
Proof. lra. Qed.
Lemma decimal_180_0 : 180.0 = 180.
Proof. lra. Qed.

Create Rewrite HintDb decimals.
#[local] Hint Rewrite decimal_2_0 decimal_1_0 decimal_0_5 decimal_0_75
  decimal_92_0 decimal_180_0 : decimals.

(** Unfolds the algebra of vectors and quaternions down to real arithmetic. *)
Ltac unfold_algebra :=
  cbv beta iota zeta delta
    [Quat.GetV Quat.GetW Quat.mul Quat.mul_vec Quat.Conj Quat.Quaternion_v
     Quat.Quaternion_w Quat.Quaternion_wv Quat.Quaternion_wxyz
     Quat.Quaternion_void Quat.DotProduct Quat.add Quat.sub Quat.neg
     Quat.scale Quat.div Quat.add_vec Quat.sub_vec
     Vec.DotProduct Vec.add Vec.sub Vec.scale Vec.cross Vec.neg Vec.div
     Vec.zero m_w m_v m_isNormalized GetX GetY GetZ].

Tactic Notation "unfold_algebra" "in" hyp(H) :=
  cbv beta iota zeta delta
    [Quat.GetV Quat.GetW Quat.mul Quat.mul_vec Quat.Conj Quat.Quaternion_v
     Quat.Quaternion_w Quat.Quaternion_wv Quat.Quaternion_wxyz
     Quat.Quaternion_void Quat.DotProduct Quat.add Quat.sub Quat.neg
     Quat.scale Quat.div Quat.add_vec Quat.sub_vec
     Vec.DotProduct Vec.add Vec.sub Vec.scale Vec.cross Vec.neg Vec.div
     Vec.zero m_w m_v m_isNormalized GetX GetY GetZ] in H.

(** ** Conjugate and inverse *)

Lemma Inv_unit (q : Quaternion) :
  Quat.Norm q = 1 -> Quat.Inv q = Quat.Conj q.
Proof.
  intros Hn. unfold Quat.Inv. destruct (m_isNormalized q); [reflexivity |].
  rewrite Quat_norm_sqr, (Quat_norm_1_dot q Hn).
  destruct q as [w [x y z] f]. unfold_algebra.
  f_equal; [| f_equal]; field.
Qed.


(** ** Rotation *)

Lemma Rotation_dot_flagged (q : Quaternion) (v : VectorCartesian) :
  let r := Quat.GetV (Quat.mul (Quat.mul_vec q v) (Quat.Conj q)) in
  Vec.DotProduct r r
  = Quat.DotProduct q q * Quat.DotProduct q q * Vec.DotProduct v v.
Proof.
  destruct q as [w [x y z] f], v as [a b c].
  unfold_algebra. ring.
Qed.

Lemma Vec_dot_div (v : VectorCartesian) (s : R) :
  s <> 0 ->
  Vec.DotProduct (Vec.div v s) (Vec.div v s) = Vec.DotProduct v v / (s * s).
Proof.
  intros Hs. destruct v as [a b c]. unfold_algebra.
  field. exact Hs.
Qed.

(** C5: a quaternion of norm 1 rotates every vector to a vector of the same
    Euclidean norm, on the flagged path and on the norm-corrected path. *)
Theorem Rotation_preserves_norm (q : Quaternion) (v : VectorCartesian) :
  Quat.Norm q = 1 -> Vec.Norm (Quat.Rotation q v) = Vec.Norm v.
Proof.
  intros Hn. pose proof (Quat_norm_1_dot q Hn) as Hd.
  unfold Vec.Norm. f_equal.
  unfold Quat.Rotation. destruct (m_isNormalized q).
  - rewrite Rotation_dot_flagged, Hd. ring.
  - rewrite Quat_norm_sqr, Hd.
    change (Quat.GetV (Quat.div ?p ?s)) with (Vec.div (Quat.GetV p) s).
    rewrite Vec_dot_div by lra.
    pose proof (Rotation_dot_flagged q v) as Hr. cbv zeta in Hr.
    rewrite Hr, Hd. field.
Qed.

(** ** Euler angles at the gimbal-lock boundary *)

Lemma ToEuler_pitch (q : Quaternion) :
  GetY (Quat.ToEuler q)
  = if Cmath.Rleb 1 (Cmath.fabs (Quat.sinp q))
    then Cmath.copysign (PI_L / 2) (Quat.sinp q)
    else asin (Quat.sinp q).
Proof. reflexivity. Qed.

(** C8: [ToEuler] is total, and when the pitch sine [2*(w*y - z*x)] has
    absolute value at least 1 the pitch it returns is [PI/2] for a positive
    sine and [-PI/2] for a negative one. *)
Theorem ToEuler_clamps_pitch (q : Quaternion) :
  1 <= Rabs (Quat.sinp q) ->
  exists roll pitch yaw,
    Quat.ToEuler q = mkVectorCartesian roll pitch yaw /\
    (0 < Quat.sinp q -> pitch = PI / 2) /\
    (Quat.sinp q < 0 -> pitch = - (PI / 2)) /\
    Quat.sinp q <> 0.
Proof.
  intros Habs.
  exists (GetX (Quat.ToEuler q)), (GetY (Quat.ToEuler q)),
    (GetZ (Quat.ToEuler q)).
  split; [reflexivity |].
  rewrite ToEuler_pitch. unfold Cmath.fabs.
  rewrite Rleb_true by exact Habs.
  unfold Cmath.copysign, PI_L.
  assert (Hpi : Rabs (PI / 2) = PI / 2).
  { apply Rabs_pos_eq. pose proof PI_RGT_0. lra. }
  rewrite Hpi.
  split; [| split].
  - intros Hpos. rewrite Rltb_false by lra. reflexivity.
  - intros Hneg. rewrite Rltb_true by lra. reflexivity.
  - intros H0. rewrite H0, Rabs_R0 in Habs. lra.
Qed.

(** ** Angular velocity *)

Lemma zero_difference_velocity (r : Quaternion) (s : R) :
  m_v (Quat.mul (Quat.scale (Quat.sub r r) s) (Quat.Inv r)) = Vec.zero.
Proof.
  destruct r as [w [x y z] f].
  unfold Quat.Inv. destruct f; unfold_algebra; f_equal; ring.
Qed.

(** C9: for a quaternion [q] of norm 1 and a positive [deltaT], the average
    angular velocity between [q] and [q] is the zero vector, whether [q] is
    pure or is first reduced by rotating the axis [(1, 0, 0)]. *)
Theorem AverageAngularVelocity_same (q : Quaternion) (deltaT : R) :
  Quat.Norm q = 1 -> 0 < deltaT ->
  Quat.AverageAngularVelocity q q deltaT = Vec.zero.
Proof.
  intros Hn _. unfold Quat.AverageAngularVelocity.
  rewrite Rltb_false by (rewrite (Quat_norm_1_dot q Hn); lra).
  apply zero_difference_velocity.
Qed.

(** ** The viewing ray of a sample point *)


Lemma maxHDist_46 : AdaptionUnit.maxHDist = 2 * tan (46 * PI / 180).
Proof.
  unfold AdaptionUnit.maxHDist, AdaptionUnit.monocular_horizontal,
    AdaptionUnit.PI.
  do 2 f_equal. lra.
Qed.

Lemma maxVDist_46 : AdaptionUnit.maxVDist = 2 * tan (46 * PI / 180).
Proof.
  unfold AdaptionUnit.maxVDist, AdaptionUnit.monocular_vertical,
    AdaptionUnit.PI.
  do 2 f_equal. lra.
Qed.

Lemma tan_46_pos : 0 < tan (46 * PI / 180).
Proof. pose proof PI_RGT_0. apply tan_gt_0; lra. Qed.

Lemma Vec_norm_div_self (c : VectorCartesian) :
  Vec.Norm c <> 0 -> Vec.Norm (Vec.div c (Vec.Norm c)) = 1.
Proof.
  intros Hc. unfold Vec.Norm at 1.
  rewrite Vec_dot_div by exact Hc.
  rewrite Vec_norm_sqr.
  replace (Vec.DotProduct c c / Vec.DotProduct c c) with 1.
  - apply sqrt_1.
  - field. rewrite <- Vec_norm_sqr. nra.
Qed.

Lemma ray_norm_pos (u v : R) : 0 < Vec.Norm (mkVectorCartesian 1 u v).
Proof.
  unfold Vec.Norm. apply sqrt_lt_R0. unfold_algebra. nra.
Qed.

(** C1 (as amended): the viewing ray before rotation is the vector
    [(1, u, v)] divided by its norm, a vector of norm 1, where [u] is
    [x - 0.5] and [v] is [0.5 - y], each scaled by [2 * maxHDist], that is by
    [4 * tan (46 degrees)]. *)
Theorem coordBefRot_ray (p : AdaptionUnit.NormalizedCoordinate) :
  let factor := 4 * tan (46 * PI / 180) in
  let u := (AdaptionUnit.x p - 0.5) * factor in
  let v := (0.5 - AdaptionUnit.y p) * factor in
  AdaptionUnit.coordBefRot p
  = Vec.div (mkVectorCartesian 1 u v) (sqrt (1 * 1 + u * u + v * v)) /\
  Vec.Norm (AdaptionUnit.coordBefRot p) = 1.
Proof.
  cbv zeta. split.
  - unfold AdaptionUnit.coordBefRot. rewrite maxHDist_46, maxVDist_46.
    replace (2 * (2 * tan (46 * PI / 180))) with (4 * tan (46 * PI / 180))
      by ring.
    reflexivity.
  - unfold AdaptionUnit.coordBefRot. apply Vec_norm_div_self.
    match goal with |- Vec.Norm (mkVectorCartesian 1 ?u ?v) <> 0 =>
      pose proof (ray_norm_pos u v) end.
    lra.
Qed.

(** C1 fails as stated: at the sample [(1, 0.5)] of the unit square the ray
    of the code differs from the ray scaled by [2 * tan (46 degrees)]. *)
Lemma coordBefRot_not_spec_ray :
  let p := AdaptionUnit.mkNormalizedCoordinate 1 0.5 in
  (0 <= AdaptionUnit.x p <= 1 /\ 0 <= AdaptionUnit.y p <= 1) /\
  AdaptionUnit.coordBefRot p <> spec_coordBefRot p.
Proof.
  cbv zeta. split; [simpl; lra |].
  intros Heq. apply (f_equal GetX) in Heq.
  unfold AdaptionUnit.coordBefRot, spec_coordBefRot in Heq.
  rewrite maxHDist_46, maxVDist_46 in Heq.
  pose proof tan_46_pos as Ht.
  set (t := tan (46 * PI / 180)) in *.
  unfold Vec.div, Vec.Norm in Heq. unfold_algebra in Heq.
  cbn [AdaptionUnit.x AdaptionUnit.y] in Heq.
  autorewrite with decimals in Heq.
  match type of Heq with
  | (1 / sqrt ?a = 1 / sqrt ?b) =>
    assert (Hlt : sqrt b < sqrt a) by (apply sqrt_lt_1; nra);
    assert (Hb : 0 < sqrt b) by (apply sqrt_lt_R0; nra)
  end.
  apply Rinv_lt_contravar in Hlt; [| nra].
  unfold Rdiv in Heq. lra.
Qed.
(** ** Euler angles *)

Lemma atan_ratio (r a : R) :
  0 < r -> cos a <> 0 -> atan (r * sin a / (r * cos a)) = atan (tan a).
Proof.
  intros Hr Hc. f_equal. unfold tan. field. split; lra.
Qed.

(** [atan2] recovers an angle of [(-PI, PI]] from a positive multiple of its
    sine and cosine. *)
Lemma atan2_polar (r a : R) :
  0 < r -> - PI < a <= PI -> Cmath.atan2 (r * sin a) (r * cos a) = a.
Proof.
  intros Hr [Hlo Hhi]. pose proof PI_RGT_0 as Hpi. unfold Cmath.atan2.
  destruct (Rtotal_order a (- (PI / 2))) as [Ha | [Ha | Ha]].
  - (* third quadrant: a + PI lies in (0, PI/2) *)
    set (b := a + PI).
    assert (Hb : 0 < b < PI / 2) by (unfold b; lra).
    assert (Hcb : 0 < cos b) by (apply cos_gt_0; lra).
    assert (Hsb : 0 < sin b) by (apply sin_gt_0; lra).
    assert (Hs : sin a = - sin b).
    { unfold b. rewrite neg_sin. ring. }
    assert (Hc : cos a = - cos b).
    { unfold b. rewrite neg_cos. ring. }
    rewrite Rltb_false by nra.
    rewrite Rltb_true by nra.
    rewrite Rltb_true by nra.
    rewrite Hs, Hc.
    replace (r * - sin b / (r * - cos b)) with (r * sin b / (r * cos b))
      by (field; split; lra).
    rewrite atan_ratio by lra.
    rewrite atan_tan by lra. unfold b. ring.
  - subst a. rewrite cos_neg, sin_neg, cos_PI2, sin_PI2.
    rewrite Rltb_false by lra. rewrite Rltb_false by lra.
    rewrite Rltb_false by lra. rewrite Rltb_true by lra. reflexivity.
  - destruct (Rtotal_order a (PI / 2)) as [Hb | [Hb | Hb]].
    + assert (Hc : 0 < cos a) by (apply cos_gt_0; lra).
      rewrite Rltb_true by nra.
      rewrite atan_ratio by lra. apply atan_tan. lra.
    + subst a. rewrite cos_PI2, sin_PI2.
      rewrite Rltb_false by lra. rewrite Rltb_false by lra.
      rewrite Rltb_true by lra. reflexivity.
    + (* second quadrant: a - PI lies in (-PI/2, 0] *)
      set (b := a - PI).
      assert (Hbr : - (PI / 2) < b <= 0) by (unfold b; lra).
      assert (Hcb : 0 < cos b) by (apply cos_gt_0; lra).
      assert (Hsb : sin b <= 0).
      { destruct (Req_dec b 0) as [-> | Hne]; [rewrite sin_0; lra |].
        pose proof (sin_gt_0 (- b)) as Hp. rewrite sin_neg in Hp. lra. }
      assert (Hs : sin a = - sin b).
      { replace a with (b + PI) by (unfold b; ring). apply neg_sin. }
      assert (Hc : cos a = - cos b).
      { replace a with (b + PI) by (unfold b; ring). apply neg_cos. }
      rewrite Rltb_false by nra.
      rewrite Rltb_true by nra.
      rewrite Rltb_false by nra.
      rewrite Hs, Hc.
      replace (r * - sin b / (r * - cos b)) with (r * sin b / (r * cos b))
        by (field; split; lra).
      rewrite atan_ratio by lra.
      rewrite atan_tan by lra. unfold b. ring.
Qed.

Lemma half_angle_sin (a : R) : sin a = 2 * sin (a * 0.5) * cos (a * 0.5).
Proof.
  rewrite <- sin_2a. f_equal. lra.
Qed.

Lemma half_angle_cos (a : R) :
  cos a = cos (a * 0.5) * cos (a * 0.5) - sin (a * 0.5) * sin (a * 0.5).
Proof.
  rewrite <- cos_2a. f_equal. lra.
Qed.

Lemma half_angle_sqr (a : R) :
  cos (a * 0.5) * cos (a * 0.5) + sin (a * 0.5) * sin (a * 0.5) = 1.
Proof.
  pose proof (sin2_cos2 (a * 0.5)) as H. unfold Rsqr in H. lra.
Qed.

(** The quaternion that [FromEuler] builds has norm 1 before it is
    normalized. *)
Lemma FromEuler_dot (yaw pitch roll : R) :
  let t0 := cos (yaw * 0.5) in
  let t1 := sin (yaw * 0.5) in
  let t2 := cos (roll * 0.5) in
  let t3 := sin (roll * 0.5) in
  let t4 := cos (pitch * 0.5) in
  let t5 := sin (pitch * 0.5) in
  let q := Quat.Quaternion_wv (t0 * t2 * t4 + t1 * t3 * t5)
             (mkVectorCartesian (t0 * t3 * t4 - t1 * t2 * t5)
                                (t0 * t2 * t5 + t1 * t3 * t4)
                                (t1 * t2 * t4 - t0 * t3 * t5)) in
  Quat.DotProduct q q = 1.
Proof.
  cbv zeta.
  pose proof (half_angle_sqr yaw) as Hy.
  pose proof (half_angle_sqr pitch) as Hp.
  pose proof (half_angle_sqr roll) as Hr.
  unfold_algebra.
  set (t0 := cos (yaw * 0.5)) in *. set (t1 := sin (yaw * 0.5)) in *.
  set (t2 := cos (roll * 0.5)) in *. set (t3 := sin (roll * 0.5)) in *.
  set (t4 := cos (pitch * 0.5)) in *. set (t5 := sin (pitch * 0.5)) in *.
  replace 1 with ((t0 * t0 + t1 * t1) * (t2 * t2 + t3 * t3)
                  * (t4 * t4 + t5 * t5)) by (rewrite Hy, Hp, Hr; ring).
  ring.
Qed.

Lemma FromEuler_components (yaw pitch roll : R) :
  let t0 := cos (yaw * 0.5) in
  let t1 := sin (yaw * 0.5) in
  let t2 := cos (roll * 0.5) in
  let t3 := sin (roll * 0.5) in
  let t4 := cos (pitch * 0.5) in
  let t5 := sin (pitch * 0.5) in
  Quat.FromEuler yaw pitch roll
  = mkQuaternion (t0 * t2 * t4 + t1 * t3 * t5)
      (mkVectorCartesian (t0 * t3 * t4 - t1 * t2 * t5)
                         (t0 * t2 * t5 + t1 * t3 * t4)
                         (t1 * t2 * t4 - t0 * t3 * t5)) true.
Proof.
  cbv zeta. unfold Quat.FromEuler. cbv zeta.
  unfold Quat.Normalize. cbn [m_isNormalized Quat.Quaternion_wv negb].
  unfold Quat.Norm.
  pose proof (FromEuler_dot yaw pitch roll) as Hd. cbv zeta in Hd.
  rewrite Hd, sqrt_1. unfold_algebra.
  f_equal; [| f_equal]; field.
Qed.

Lemma FromEuler_norm (yaw pitch roll : R) :
  Quat.Norm (Quat.FromEuler yaw pitch roll) = 1.
Proof.
  rewrite FromEuler_components. cbv zeta. unfold Quat.Norm.
  pose proof (FromEuler_dot yaw pitch roll) as Hd. cbv zeta in Hd.
  unfold Quat.Quaternion_wv in Hd. unfold Quat.DotProduct in *.
  cbn [m_w m_v] in *. rewrite Hd. apply sqrt_1.
Qed.

(** C6: for yaw and roll in [(-PI, PI]] and a pitch of absolute value below
    89 degrees, [ToEuler] of [FromEuler yaw pitch roll] is the triple
    [(roll, pitch, yaw)]. *)
Theorem FromEuler_ToEuler (yaw pitch roll : R) :
  - PI < yaw <= PI -> - PI < roll <= PI -> Rabs pitch < 89 * PI / 180 ->
  Quat.ToEuler (Quat.FromEuler yaw pitch roll)
  = mkVectorCartesian roll pitch yaw.
Proof.
  intros Hyaw Hroll Hpitch. pose proof PI_RGT_0 as Hpi.
  assert (Hp : - (PI / 2) < pitch < PI / 2).
  { apply Rabs_def2 in Hpitch. lra. }
  assert (Hcp : 0 < cos pitch) by (apply cos_gt_0; lra).
  rewrite FromEuler_components. cbv zeta.
  pose proof (half_angle_sqr yaw) as Ey.
  pose proof (half_angle_sqr pitch) as Ep.
  pose proof (half_angle_sqr roll) as Er.
  pose proof (half_angle_sin yaw) as Sy.
  pose proof (half_angle_sin pitch) as Sp.
  pose proof (half_angle_sin roll) as Sr.
  pose proof (half_angle_cos yaw) as Cy.
  pose proof (half_angle_cos pitch) as Cp.
  pose proof (half_angle_cos roll) as Cr.
  unfold Quat.ToEuler. cbn [m_w m_v GetX GetY GetZ]. cbv zeta.
  set (t0 := cos (yaw * 0.5)) in *. set (t1 := sin (yaw * 0.5)) in *.
  set (t2 := cos (roll * 0.5)) in *. set (t3 := sin (roll * 0.5)) in *.
  set (t4 := cos (pitch * 0.5)) in *. set (t5 := sin (pitch * 0.5)) in *.
  autorewrite with decimals.
  assert (H1 : 1 = (t0 * t0 + t1 * t1) * (t2 * t2 + t3 * t3)
                   * (t4 * t4 + t5 * t5)) by (rewrite Ey, Ep, Er; ring).
  f_equal.
  - (* roll *)
    transitivity (Cmath.atan2 (cos pitch * sin roll) (cos pitch * cos roll));
      [| apply atan2_polar; assumption].
    f_equal.
    + rewrite Sr, Cp.
      replace (2 * t3 * t2) with (2 * t3 * t2 * (t0 * t0 + t1 * t1))
        by (rewrite Ey; ring).
      ring.
    + rewrite Cr, Cp.
      replace ((t4 * t4 - t5 * t5) * (t2 * t2 - t3 * t3))
        with ((t4 * t4 - t5 * t5) * (t2 * t2 - t3 * t3)
              * (t0 * t0 + t1 * t1)) by (rewrite Ey; ring).
      rewrite H1 at 1. ring.
  - (* pitch *)
    assert (Hs : 2 * ((t0 * t2 * t4 + t1 * t3 * t5) * (t0 * t2 * t5 + t1 * t3 * t4)
                      - (t1 * t2 * t4 - t0 * t3 * t5) * (t0 * t3 * t4 - t1 * t2 * t5))
                 = sin pitch).
    { rewrite Sp.
      replace (2 * t5 * t4)
        with (2 * t5 * t4 * ((t0 * t0 + t1 * t1) * (t2 * t2 + t3 * t3)))
        by (rewrite Ey, Er; ring).
      ring. }
    rewrite Hs.
    assert (Hlt : Rabs (sin pitch) < 1).
    { apply Rabs_def1.
      - rewrite <- sin_PI2. apply sin_increasing_1; lra.
      - rewrite <- sin_PI2, <- sin_neg. apply sin_increasing_1; lra. }
    unfold Cmath.fabs. rewrite Rleb_false by exact Hlt.
    apply asin_sin. lra.
  - (* yaw *)
    transitivity (Cmath.atan2 (cos pitch * sin yaw) (cos pitch * cos yaw));
      [| apply atan2_polar; assumption].
    f_equal.
    + rewrite Sy, Cp.
      replace (2 * t1 * t0) with (2 * t1 * t0 * (t2 * t2 + t3 * t3))
        by (rewrite Er; ring).
      ring.
    + rewrite Cy, Cp.
      replace ((t4 * t4 - t5 * t5) * (t0 * t0 - t1 * t1))
        with ((t4 * t4 - t5 * t5) * (t0 * t0 - t1 * t1)
              * (t2 * t2 + t3 * t3)) by (rewrite Er; ring).
      rewrite H1 at 1. ring.
Qed.

(** ** Powers and spherical interpolation *)

Lemma Vec_norm_0 (v : VectorCartesian) : Vec.Norm v = 0 -> v = Vec.zero.
Proof.
  intros H. apply sqrt_eq_0 in H; [| apply Vec_dot_self_nonneg].
  destruct v as [a b c]. unfold Vec.DotProduct in H. simpl in H.
  unfold Vec.zero. f_equal; nra.
Qed.

Lemma Vec_norm_zero : Vec.Norm Vec.zero = 0.
Proof.
  unfold Vec.Norm. unfold_algebra.
  replace (0 * 0 + 0 * 0 + 0 * 0) with 0 by ring. apply sqrt_0.
Qed.

Lemma Vec_norm_scale (s : R) (v : VectorCartesian) :
  0 <= s -> Vec.Norm (Vec.scale s v) = s * Vec.Norm v.
Proof.
  intros Hs. unfold Vec.Norm.
  replace (Vec.DotProduct (Vec.scale s v) (Vec.scale s v))
    with (s * s * Vec.DotProduct v v)
    by (destruct v; unfold_algebra; ring).
  rewrite sqrt_mult; [| nra | apply Vec_dot_self_nonneg].
  rewrite sqrt_square by exact Hs. reflexivity.
Qed.

(** Every quaternion to the power 0 is the quaternion 1. *)
Lemma pow_0 (q : Quaternion) : Quat.pow q 0 = Quat.Quaternion_w 1.
Proof.
  unfold Quat.pow, Quat.Exp.
  assert (Hv : m_v (Quat.scale (Quat.Log q) 0) = Vec.zero).
  { unfold Quat.scale, Quat.Quaternion_wv; cbn [m_v].
    destruct (m_v (Quat.Log q)); unfold Vec.scale, Vec.zero; simpl.
    f_equal; ring. }
  assert (Hw : m_w (Quat.scale (Quat.Log q) 0) = 0).
  { unfold Quat.scale, Quat.Quaternion_wv; cbn [m_w]. ring. }
  rewrite Hv, Hw, Vec_norm_zero, Reqb_true by reflexivity.
  cbn [negb]. rewrite cos_0, exp_0.
  unfold Quat.Quaternion_w, Quat.Quaternion_wv. f_equal. ring.
Qed.

(** A quaternion of norm 1 with a non-negative scalar part is its own first
    power. *)
Lemma pow_1_unit (w : R) (v : VectorCartesian) :
  w * w + Vec.DotProduct v v = 1 -> 0 <= w ->
  Quat.pow (mkQuaternion w v false) 1 = mkQuaternion w v false.
Proof.
  intros Hunit Hw.
  assert (Hn : Quat.Norm (mkQuaternion w v false) = 1).
  { unfold Quat.Norm, Quat.DotProduct; cbn [m_w m_v].
    rewrite Hunit. apply sqrt_1. }
  unfold Quat.pow, Quat.Log. rewrite Hn. cbn [m_w m_v].
  unfold Cmath.log. rewrite ln_1.
  rewrite (Reqb_false 1 0) by lra. cbn [negb]. rewrite andb_true_r.
  destruct (Req_dec (Vec.Norm v) 0) as [Hz | Hnz].
  - rewrite Reqb_true by exact Hz. cbn [negb].
    apply Vec_norm_0 in Hz. subst v.
    assert (w = 1) by (unfold Vec.DotProduct, Vec.zero in Hunit; simpl in Hunit; nra).
    subst w.
    unfold Quat.Exp, Quat.scale, Quat.Quaternion_wv; cbn [m_w m_v].
    replace (Vec.scale 1 Vec.zero) with Vec.zero
      by (unfold Vec.scale, Vec.zero; simpl; f_equal; ring).
    rewrite Vec_norm_zero, Reqb_true by reflexivity. cbn [negb].
    rewrite cos_0, Rmult_0_l, exp_0. f_equal. ring.
  - rewrite Reqb_false by exact Hnz. cbn [negb].
    assert (Hvpos : 0 < Vec.Norm v).
    { pose proof (sqrt_pos (Vec.DotProduct v v)). unfold Vec.Norm in *. lra. }
    assert (Hdv : 0 < Vec.DotProduct v v).
    { rewrite <- Vec_norm_sqr. nra. }
    assert (Hwr : -1 < w < 1) by nra.
    replace (w / 1) with w by field.
    pose proof (acos_bound_lt w Hwr) as Hth.
    set (th := acos w) in *.
    set (u := Vec.scale 1 (Vec.scale th (Vec.div v (Vec.Norm v)))).
    assert (Hu : Vec.Norm u = th).
    { unfold u. rewrite !Vec_norm_scale by lra.
      rewrite Vec_norm_div_self by exact Hnz. ring. }
    unfold Quat.Exp, Quat.scale, Quat.Quaternion_wv; cbn [m_w m_v].
    fold u. rewrite Hu.
    rewrite Reqb_false by lra. cbn [negb].
    rewrite Rmult_0_l, exp_0.
    unfold th at 1. rewrite cos_acos by lra.
    assert (Hsin : sin th = Vec.Norm v).
    { unfold th. rewrite sin_acos by lra. unfold Vec.Norm. f_equal.
      unfold Rsqr. lra. }
    rewrite Hsin. f_equal; [ring |].
    unfold u. destruct v as [a b c].
    unfold Vec.scale, Vec.div; cbn [GetX GetY GetZ].
    f_equal; field; lra.
Qed.

Lemma mul_one_r (q : Quaternion) :
  Quat.mul q (Quat.Quaternion_w 1) = mkQuaternion (m_w q) (m_v q) false.
Proof.
  destruct q as [w [x y z] f]. unfold_algebra. f_equal; [| f_equal]; ring.
Qed.

(** [q1 * (Conj q1 * q2)] is [q2] scaled by the squared norm of [q1]. *)
Lemma mul_Conj_cancel (q1 q2 : Quaternion) :
  Quat.DotProduct q1 q1 = 1 ->
  Quat.mul q1 (Quat.mul (Quat.Conj q1) q2)
  = mkQuaternion (m_w q2) (m_v q2) false.
Proof.
  destruct q1 as [w1 [x1 y1 z1] f1], q2 as [w2 [x2 y2 z2] f2].
  unfold_algebra. intros H.
  f_equal; [| f_equal].
  - transitivity ((w1 * w1 + (x1 * x1 + y1 * y1 + z1 * z1)) * w2);
      [ring | rewrite H; ring].
  - transitivity ((w1 * w1 + (x1 * x1 + y1 * y1 + z1 * z1)) * x2);
      [ring | rewrite H; ring].
  - transitivity ((w1 * w1 + (x1 * x1 + y1 * y1 + z1 * z1)) * y2);
      [ring | rewrite H; ring].
  - transitivity ((w1 * w1 + (x1 * x1 + y1 * y1 + z1 * z1)) * z2);
      [ring | rewrite H; ring].
Qed.

Lemma mul_Conj_components (q1 q2 : Quaternion) :
  let p := Quat.mul (Quat.Conj q1) q2 in
  m_w p = Quat.DotProduct q1 q2 /\
  m_w p * m_w p + Vec.DotProduct (m_v p) (m_v p)
  = Quat.DotProduct q1 q1 * Quat.DotProduct q2 q2.
Proof.
  destruct q1 as [w1 [x1 y1 z1] f1], q2 as [w2 [x2 y2 z2] f2].
  unfold_algebra. split; ring.
Qed.

Lemma mul_flag (p q : Quaternion) :
  Quat.mul p q = mkQuaternion (m_w (Quat.mul p q)) (m_v (Quat.mul p q)) false.
Proof. reflexivity. Qed.

Lemma neg_dot (q1 q2 : Quaternion) :
  Quat.DotProduct q1 (Quat.neg q2) = - Quat.DotProduct q1 q2 /\
  Quat.DotProduct (Quat.neg q2) (Quat.neg q2) = Quat.DotProduct q2 q2.
Proof.
  destruct q1 as [w1 [x1 y1 z1] f1], q2 as [w2 [x2 y2 z2] f2].
  unfold_algebra. split; ring.
Qed.

(** The interpolation at [k = 0], for any two quaternions. *)
Lemma SLERP_at_0 (q1 q2 : Quaternion) :
  Quat.SLERP q1 q2 0 = mkQuaternion (m_w q1) (m_v q1) false.
Proof.
  unfold Quat.SLERP.
  destruct (Cmath.Rltb (Quat.DotProduct q1 q2) 0);
    rewrite pow_0; apply mul_one_r.
Qed.

(** The interpolation at [k = 1] between quaternions of norm 1 whose dot
    product is not negative. *)
Lemma SLERP_at_1_near (q1 q2 : Quaternion) :
  Quat.Norm q1 = 1 -> Quat.Norm q2 = 1 -> 0 <= Quat.DotProduct q1 q2 ->
  Quat.SLERP q1 q2 1 = mkQuaternion (m_w q2) (m_v q2) false.
Proof.
  intros H1 H2 Hd.
  pose proof (Quat_norm_1_dot q1 H1) as D1.
  pose proof (Quat_norm_1_dot q2 H2) as D2.
  unfold Quat.SLERP. rewrite Rltb_false by exact Hd.
  rewrite (Inv_unit q1 H1).
  destruct (mul_Conj_components q1 q2) as [Hw Hu]. cbv zeta in Hw, Hu.
  rewrite (mul_flag (Quat.Conj q1) q2).
  rewrite pow_1_unit.
  - rewrite <- mul_flag. apply mul_Conj_cancel. exact D1.
  - rewrite Hu, D1, D2. ring.
  - rewrite Hw. exact Hd.
Qed.

(** The interpolation at [k = 1] between quaternions of norm 1 whose dot
    product is negative: the code interpolates towards [-q2]. *)
Lemma SLERP_at_1_far (q1 q2 : Quaternion) :
  Quat.Norm q1 = 1 -> Quat.Norm q2 = 1 -> Quat.DotProduct q1 q2 < 0 ->
  Quat.SLERP q1 q2 1 = Quat.neg q2.
Proof.
  intros H1 H2 Hd.
  pose proof (Quat_norm_1_dot q1 H1) as D1.
  pose proof (Quat_norm_1_dot q2 H2) as D2.
  destruct (neg_dot q1 q2) as [N1 N2].
  unfold Quat.SLERP. rewrite Rltb_true by exact Hd.
  rewrite (Inv_unit q1 H1).
  destruct (mul_Conj_components q1 (Quat.neg q2)) as [Hw Hu].
  cbv zeta in Hw, Hu.
  rewrite (mul_flag (Quat.Conj q1) (Quat.neg q2)).
  rewrite pow_1_unit.
  - rewrite <- mul_flag. rewrite mul_Conj_cancel by exact D1. reflexivity.
  - rewrite Hu, N2, D1, D2. ring.
  - rewrite Hw, N1. lra.
Qed.

Lemma Vec_eqb_refl (v : VectorCartesian) : Vec.eqb v v = true.
Proof. unfold Vec.eqb. rewrite !Reqb_true; reflexivity. Qed.

Lemma Quat_eqb_components (p q : Quaternion) :
  m_w p = m_w q -> m_v p = m_v q -> Quat.eqb p q = true.
Proof.
  intros Hw Hv. unfold Quat.eqb. rewrite Hw, Hv, Reqb_true, Vec_eqb_refl;
    reflexivity.
Qed.

Lemma Quat_eqb_w (p q : Quaternion) :
  m_w p <> m_w q -> Quat.eqb p q = false.
Proof. intros Hw. unfold Quat.eqb. rewrite Reqb_false by exact Hw. reflexivity. Qed.

(** C3 (as amended): between quaternions of norm 1, [SLERP] at 0 compares
    equal to [q1]; [SLERP] at 1 compares equal to [q2] when the dot product
    is not negative and to [-q2] when it is negative. *)
Theorem SLERP_endpoints (q1 q2 : Quaternion) :
  Quat.Norm q1 = 1 -> Quat.Norm q2 = 1 ->
  Quat.eqb (Quat.SLERP q1 q2 0) q1 = true /\
  (0 <= Quat.DotProduct q1 q2 -> Quat.eqb (Quat.SLERP q1 q2 1) q2 = true) /\
  (Quat.DotProduct q1 q2 < 0 ->
   Quat.eqb (Quat.SLERP q1 q2 1) (Quat.neg q2) = true).
Proof.
  intros H1 H2. split; [| split].
  - rewrite SLERP_at_0. apply Quat_eqb_components; reflexivity.
  - intros Hd. rewrite SLERP_at_1_near by assumption.
    apply Quat_eqb_components; reflexivity.
  - intros Hd. rewrite SLERP_at_1_far by assumption.
    apply Quat_eqb_components; reflexivity.
Qed.

Lemma Norm_wxyz_axis (w : R) :
  Rabs w = 1 -> Quat.Norm (Quat.Quaternion_wxyz w 0 0 0) = 1.
Proof.
  intros Hw. unfold Quat.Norm. unfold_algebra.
  replace (w * w + (0 * 0 + 0 * 0 + 0 * 0)) with (Rsqr w)
    by (unfold Rsqr; ring).
  rewrite sqrt_Rsqr_abs. exact Hw.
Qed.

(** C3 fails as stated: [q1 = 1] and [q2 = -1] have norm 1, and [SLERP] at 1
    does not compare equal to [q2]. *)
Lemma SLERP_at_1_not_q2 :
  let q1 := Quat.Quaternion_wxyz 1 0 0 0 in
  let q2 := Quat.Quaternion_wxyz (-1) 0 0 0 in
  Quat.Norm q1 = 1 /\ Quat.Norm q2 = 1 /\
  Quat.eqb (Quat.SLERP q1 q2 1) q2 = false.
Proof.
  cbv zeta.
  assert (H1 : Quat.Norm (Quat.Quaternion_wxyz 1 0 0 0) = 1).
  { apply Norm_wxyz_axis, Rabs_R1. }
  assert (H2 : Quat.Norm (Quat.Quaternion_wxyz (-1) 0 0 0) = 1).
  { apply Norm_wxyz_axis. unfold Rabs. destruct (Rcase_abs (-1)); lra. }
  split; [exact H1 | split; [exact H2 |]].
  rewrite SLERP_at_1_far; [| exact H1 | exact H2 | unfold_algebra; lra].
  apply Quat_eqb_w. unfold_algebra. lra.
Qed.

(** ** The cached flag *)


(** The constructors and the arithmetic operators return values whose flag
    is unset. *)
Lemma constructors_unflagged (w x y z : R) (v : VectorCartesian) :
  m_isNormalized Quat.Quaternion_void = false /\
  m_isNormalized (Quat.Quaternion_wv w v) = false /\
  m_isNormalized (Quat.Quaternion_wxyz w x y z) = false /\
  m_isNormalized (Quat.Quaternion_w w) = false /\
  m_isNormalized (Quat.Quaternion_v v) = false.
Proof. repeat split. Qed.

Lemma operators_unflagged (p q : Quaternion) (v : VectorCartesian) (s : R) :
  m_isNormalized (Quat.add p q) = false /\
  m_isNormalized (Quat.add_vec p v) = false /\
  m_isNormalized (Quat.sub p q) = false /\
  m_isNormalized (Quat.sub_vec p v) = false /\
  m_isNormalized (Quat.neg p) = false /\
  m_isNormalized (Quat.mul p q) = false /\
  m_isNormalized (Quat.mul_vec p v) = false /\
  m_isNormalized (Quat.scale p s) = false /\
  m_isNormalized (Quat.div p s) = false /\
  m_isNormalized (Quat.Conj p) = false /\
  m_isNormalized (Quat.Inv p) = false.
Proof.
  repeat split. unfold Quat.Inv. destruct (m_isNormalized p); reflexivity.
Qed.

(** [Normalize] and [FromEuler] return values whose flag is set. *)
Lemma Normalize_flag (q : Quaternion) :
  m_isNormalized (Quat.Normalize q) = true.
Proof.
  unfold Quat.Normalize. destruct (m_isNormalized q) eqn:Hf; cbn [negb];
    [exact Hf | reflexivity].
Qed.

Lemma FromEuler_flag (yaw pitch roll : R) :
  m_isNormalized (Quat.FromEuler yaw pitch roll) = true.
Proof. apply Normalize_flag. Qed.

Lemma Quat_norm_div_self (q : Quaternion) :
  Quat.Norm q <> 0 ->
  Quat.DotProduct (Quat.div q (Quat.Norm q)) (Quat.div q (Quat.Norm q)) = 1.
Proof.
  intros Hq.
  assert (Hsq : Quat.Norm q * Quat.Norm q = Quat.DotProduct q q).
  { apply sqrt_sqrt, Quat_dot_self_nonneg. }
  revert Hq Hsq. generalize (Quat.Norm q) as n.
  destruct q as [w [x y z] f]. unfold_algebra. intros n Hn Hsq.
  transitivity ((w * w + (x * x + y * y + z * z)) / (n * n)).
  - field. exact Hn.
  - rewrite <- Hsq. field. exact Hn.
Qed.

Lemma Normalize_norm (q : Quaternion) :
  m_isNormalized q = false -> Quat.Norm q <> 0 ->
  Quat.Norm (Quat.Normalize q) = 1.
Proof.
  intros Hf Hq. unfold Quat.Normalize. rewrite Hf. cbn [negb].
  unfold Quat.Norm at 1.
  change (Quat.DotProduct ?a ?a)
    with (Quat.DotProduct (Quat.div q (Quat.Norm q))
                          (Quat.div q (Quat.Norm q))).
  rewrite Quat_norm_div_self by exact Hq. apply sqrt_1.
Qed.

(** C7: every quaternion produced by the public constructors and operations
    whose cached flag is set has norm 1; the flag is never left set on a
    value that an operation changed. *)
Theorem flag_implies_unit (q : Quaternion) :
  produced q -> m_isNormalized q = true -> Quat.Norm q = 1.
Proof.
  induction 1 as
    [ | | | | | yaw pitch roll
    | | | | | | | | |
    | q Hq IH Hnz | q Hq IH
    | | q Hq IH | | | | q1 q2 k H1 IH1 H2 IH2 | ];
    try (cbn; discriminate).
  - intros _. apply FromEuler_norm.
  - intros Hflag. destruct (m_isNormalized q) eqn:Hf.
    + unfold Quat.Normalize. rewrite Hf. cbn [negb]. apply IH. reflexivity.
    + apply Normalize_norm; assumption.
  - unfold Quat.Normalized. destruct (m_isNormalized q) eqn:Hf; cbn [negb].
    + intros _. apply IH. reflexivity.
    + cbn. discriminate.
  - unfold Quat.Inv. destruct (m_isNormalized q); cbn; discriminate.
  - unfold Quat.SLERP.
    destruct (Cmath.Rltb (Quat.DotProduct q1 q2) 0); cbn; discriminate.
Qed.

(** ** The ordered map *)

Lemma update_keys_bound {V : Type} (b k : R) (f : option V -> V)
    (m : list (R * V)) :
  b < k -> Forall (fun e => b < fst e) m ->
  Forall (fun e => b < fst e) (StdMap.update k f m).
Proof.
  intros Hb Hm. induction m as [| [k' v'] m IH]; cbn [StdMap.update].
  - apply List.Forall_cons; [exact Hb | apply List.Forall_nil].
  - pose proof (List.Forall_inv Hm) as Hhd.
    pose proof (List.Forall_inv_tail Hm) as Htl. cbn [fst] in Hhd.
    destruct (Cmath.Rltb k k').
    + apply List.Forall_cons; [exact Hb | exact Hm].
    + destruct (Cmath.Rltb k' k).
      * apply List.Forall_cons; [exact Hhd | apply IH; exact Htl].
      * apply List.Forall_cons; [exact Hhd | exact Htl].
Qed.

(** Entering or updating a key keeps the keys in strictly ascending order. *)
Lemma update_ascending {V : Type} (k : R) (f : option V -> V)
    (m : list (R * V)) :
  StdMap.ascending m -> StdMap.ascending (StdMap.update k f m).
Proof.
  unfold StdMap.ascending.
  induction m as [| [k' v'] m IH]; intros Hs; cbn [StdMap.update].
  - apply SSorted_cons; [apply SSorted_nil | apply List.Forall_nil].
  - apply StronglySorted_inv in Hs. destruct Hs as [Hs Hall].
    unfold Cmath.Rltb.
    destruct (Rlt_dec k k') as [Hlt | Hge].
    + apply SSorted_cons.
      * apply SSorted_cons; assumption.
      * apply List.Forall_cons; [exact Hlt |].
        eapply List.Forall_impl; [| exact Hall].
        intros e He. cbn in *. lra.
    + destruct (Rlt_dec k' k) as [Hgt | Hle].
      * apply SSorted_cons; [apply IH; exact Hs |].
        apply update_keys_bound; assumption.
      * apply SSorted_cons; assumption.
Qed.

(** On an ascending map [lower_bound] returns the entry with the least key
    that is not less than the argument. *)
Lemma lower_bound_least {V : Type} (k : R) (m : list (R * V))
    (e : R * V) :
  StdMap.ascending m -> StdMap.lower_bound k m = Some e ->
  In e m /\ k <= fst e /\
  forall e', In e' m -> k <= fst e' -> fst e <= fst e'.
Proof.
  unfold StdMap.ascending, StdMap.lower_bound.
  induction m as [| [k' v'] m IH]; intros Hs Hf; [discriminate |].
  apply StronglySorted_inv in Hs. destruct Hs as [Hs Hall].
  cbn [List.find fst] in Hf. unfold Cmath.Rltb in Hf.
  destruct (Rlt_dec k' k) as [Hlt | Hge]; cbn [negb] in Hf.
  - destruct (IH Hs Hf) as [Hin [Hk Hleast]].
    split; [right; exact Hin | split; [exact Hk |]].
    intros e' [<- | Hin'] He'; [cbn in He'; lra | apply Hleast; assumption].
  - injection Hf as <-. split; [left; reflexivity | split; [cbn; lra |]].
    intros e' [<- | Hin'] He'; [lra |].
    rewrite List.Forall_forall in Hall. specialize (Hall _ Hin').
    cbn in *. lra.
Qed.

Lemma update_values {V : Type} (P : V -> Prop) (k : R) (f : option V -> V)
    (m : list (R * V)) :
  P (f None) -> (forall v, P v -> P (f (Some v))) ->
  Forall (fun e => P (snd e)) m ->
  Forall (fun e => P (snd e)) (StdMap.update k f m).
Proof.
  intros Hnone Hsome Hm. induction m as [| [k' v'] m IH]; cbn [StdMap.update].
  - apply List.Forall_cons; [exact Hnone | apply List.Forall_nil].
  - pose proof (List.Forall_inv Hm) as Hhd.
    pose proof (List.Forall_inv_tail Hm) as Htl. cbn [snd] in Hhd.
    destruct (Cmath.Rltb k k').
    + apply List.Forall_cons; [exact Hnone | exact Hm].
    + destruct (Cmath.Rltb k' k).
      * apply List.Forall_cons; [exact Hhd | apply IH; exact Htl].
      * apply List.Forall_cons; [apply Hsome; exact Hhd | exact Htl].
Qed.

(** The index that the constructor fills is ascending in X, and each of its
    columns is ascending in Y. *)
Lemma fill_mapping_ascending (fw fh : Z) (sets : list DASH.SRD) (i : Z)
    (m : list (R * list (R * Z))) :
  StdMap.ascending m /\ Forall (fun e => StdMap.ascending (snd e)) m ->
  let m' := AdaptionUnit.fill_mapping fw fh sets i m in
  StdMap.ascending m' /\ Forall (fun e => StdMap.ascending (snd e)) m'.
Proof.
  cbv zeta. revert i m.
  induction sets as [| srd rest IH]; intros i m [Hm Hcols];
    cbn [AdaptionUnit.fill_mapping]; [split; assumption |].
  apply IH. unfold AdaptionUnit.assign_tile. split.
  - apply update_ascending. exact Hm.
  - apply (update_values (fun col => StdMap.ascending col)).
    + apply update_ascending. apply SSorted_nil.
    + intros col Hcol. apply update_ascending. exact Hcol.
    + exact Hcols.
Qed.

(** ** The tile index *)


Lemma lower_bound_found {V : Type} (k b : R) (m : list (R * V)) :
  k <= b -> Exists (fun e => b <= fst e) m ->
  exists e, StdMap.lower_bound k m = Some e /\ In e m.
Proof.
  intros Hk Hex. unfold StdMap.lower_bound.
  destruct (List.find (fun e => negb (Cmath.Rltb (fst e) k)) m) as [e |] eqn:Hf.
  - exists e. split; [reflexivity |]. apply List.find_some in Hf. tauto.
  - exfalso. apply List.Exists_exists in Hex. destruct Hex as [e [Hin Hb]].
    pose proof (List.find_none _ _ Hf e Hin) as Hn. cbn in Hn.
    rewrite Rltb_false in Hn by lra. discriminate.
Qed.

Lemma mapCoordToTile_found (au : AdaptionUnit.AdaptionUnit)
    (c : AdaptionUnit.NormalizedCoordinate) :
  reaches_one (AdaptionUnit.normalizedCoordTileMapping au) ->
  AdaptionUnit.x c <= 1 -> AdaptionUnit.y c <= 1 ->
  exists tile, AdaptionUnit.mapCoordToTile au c = Some tile.
Proof.
  intros [Hx Hy] Hcx Hcy. unfold AdaptionUnit.mapCoordToTile.
  destruct (lower_bound_found _ 1 _ Hcx Hx) as [[kx col] [-> Hin]].
  rewrite List.Forall_forall in Hy. specialize (Hy _ Hin). cbn in Hy.
  destruct (lower_bound_found _ 1 _ Hcy Hy) as [[ky tile] [-> _]].
  exists tile. reflexivity.
Qed.

(** ** The equirectangular coordinate of a sample *)

Lemma fmod_1_nonneg (a : R) : 0 <= a -> 0 <= Cmath.fmod a 1.0.
Proof.
  intros Ha. unfold Cmath.fmod, Cmath.trunc.
  replace (a / 1.0) with a by lra.
  rewrite Rltb_false by exact Ha.
  pose proof (Zfloor_bound a). lra.
Qed.

Section EquirectRange.

Context {S : VectorSpherical}.
Hypothesis GetTheta_lower : forall v, - PI <= GetTheta v.
Hypothesis GetPhi_upper : forall v, GetPhi v <= PI.

Lemma equirect_in_range (q : Quaternion)
    (p : AdaptionUnit.NormalizedCoordinate) :
  let c := AdaptionUnit.fromViewportCoordToEquirectCoord q p in
  AdaptionUnit.x c <= 1 /\ AdaptionUnit.y c <= 1.
Proof.
  cbv zeta. unfold AdaptionUnit.fromViewportCoordToEquirectCoord.
  cbn [AdaptionUnit.x AdaptionUnit.y]. unfold AdaptionUnit.PI.
  pose proof PI_RGT_0 as Hpi.
  set (v := Quat.Rotation q (AdaptionUnit.coordBefRot p)).
  pose proof (GetTheta_lower v) as Ht. pose proof (GetPhi_upper v) as Hp.
  split.
  - assert (Ha : 0 <= 0.75 + GetTheta v / (2.0 * PI)).
    { assert (- (1 / 2) <= GetTheta v / (2.0 * PI)).
      { apply Rmult_le_reg_r with (2.0 * PI); [lra |].
        unfold Rdiv. rewrite Rmult_assoc, Rinv_l by lra. lra. }
      lra. }
    pose proof (fmod_1_nonneg _ Ha). lra.
  - apply Rmult_le_reg_r with PI; [lra |].
    unfold Rdiv. rewrite Rmult_assoc, Rinv_l by lra. lra.
Qed.

End EquirectRange.

(** ** The visibility histogram *)

Lemma total_empty : AdaptionUnit.total ∅ = 0%Z.
Proof. unfold AdaptionUnit.total. apply map_fold_empty. Qed.

Lemma total_increment (h : gmap Z Z) (t : Z) :
  AdaptionUnit.total (AdaptionUnit.increment h t)
  = (AdaptionUnit.total h + 1)%Z.
Proof.
  unfold AdaptionUnit.total, AdaptionUnit.increment.
  destruct (h !! t) as [c |] eqn:Hc; cbn [default from_option]; unfold Datatypes.id.
  - rewrite <- insert_delete_eq.
    rewrite map_fold_insert_L; [| intros; lia | apply lookup_delete_eq].
    rewrite (map_fold_delete_L _ _ t c h); [lia | intros; lia | exact Hc].
  - rewrite map_fold_insert_L; [lia | intros; lia | exact Hc].
Qed.

Lemma increment_positive (h : gmap Z Z) (t : Z) :
  (forall k c, h !! k = Some c -> (1 <= c)%Z) ->
  forall k c, AdaptionUnit.increment h t !! k = Some c -> (1 <= c)%Z.
Proof.
  intros Hpos k c. unfold AdaptionUnit.increment.
  destruct (decide (t = k)) as [-> | Hne].
  - rewrite lookup_insert_eq. intros [= <-].
    destruct (h !! k) as [c' |] eqn:Hk; cbn [default from_option]; unfold Datatypes.id.
    + specialize (Hpos _ _ Hk). lia.
    + lia.
  - rewrite lookup_insert_ne by exact Hne. apply Hpos.
Qed.

Lemma increment_size (h : gmap Z Z) (t : Z) :
  (size (AdaptionUnit.increment h t) <= size h + 1)%nat.
Proof.
  unfold AdaptionUnit.increment.
  destruct (h !! t) as [c |] eqn:Hc.
  - rewrite map_size_insert_Some by eauto. lia.
  - rewrite map_size_insert_None by exact Hc. lia.
Qed.

Section Histogram.

Context {S : VectorSpherical}.
Variable au : AdaptionUnit.AdaptionUnit.
Variable q : Quaternion.

(** What the loop leaves in the histogram when it runs to its end. *)
Lemma visibility_loop_returns (n j : nat) (h h' : gmap Z Z) :
  AdaptionUnit.visibility_loop au q n j h = Some h' ->
  AdaptionUnit.total h' = (AdaptionUnit.total h + Z.of_nat n)%Z /\
  (size h' <= size h + n)%nat /\
  ((forall k c, h !! k = Some c -> (1 <= c)%Z) ->
   forall k c, h' !! k = Some c -> (1 <= c)%Z).
Proof.
  revert j h. induction n as [| n IH]; intros j h Hrun; cbn in Hrun.
  - injection Hrun as <-. split; [lia | split; [lia | auto]].
  - destruct (AdaptionUnit.samplePoints au !! j) as [p |]; [| discriminate].
    destruct (AdaptionUnit.mapCoordToTile au
                (AdaptionUnit.fromViewportCoordToEquirectCoord q p))
      as [t |]; [| discriminate].
    destruct (IH _ _ Hrun) as [Ht [Hs Hp]].
    rewrite total_increment in Ht.
    pose proof (increment_size h t).
    split; [lia | split; [lia |]].
    intros Hpos. apply Hp. apply increment_positive. exact Hpos.
Qed.

(** The loop runs to its end when every sample it reads resolves to a
    tile. *)
Lemma visibility_loop_runs (n j : nat) (h : gmap Z Z) :
  (j + n <= length (AdaptionUnit.samplePoints au))%nat ->
  (forall p, exists t,
      AdaptionUnit.mapCoordToTile au
        (AdaptionUnit.fromViewportCoordToEquirectCoord q p) = Some t) ->
  exists h', AdaptionUnit.visibility_loop au q n j h = Some h'.
Proof.
  intros Hlen Hres. revert j h Hlen.
  induction n as [| n IH]; intros j h Hlen; cbn.
  - eauto.
  - destruct (lookup_lt_is_Some_2 (AdaptionUnit.samplePoints au) j)
      as [p ->]; [lia |].
    destruct (Hres p) as [t ->].
    apply IH. lia.
Qed.

End Histogram.

Lemma new_samplePoints (sets : list DASH.SRD) (au : AdaptionUnit.AdaptionUnit) :
  AdaptionUnit.new sets = Some au ->
  length (AdaptionUnit.samplePoints au) = 81%nat.
Proof.
  unfold AdaptionUnit.new. destruct sets as [| srd rest]; [discriminate |].
  intros [= <-]. reflexivity.
Qed.

(** C2 (as amended): a resolver built from a non-empty layout whose index
    has an X boundary of at least 1.0 and, in every column, a Y boundary of
    at least 1.0 returns, for every head rotation, a histogram whose counts
    sum to 81.  The ranges of the spherical angles are those of the absent
    [Vector.hpp]: theta is at least [-PI] and phi at most [PI]. *)
Theorem computeTileVisibility_total (S : VectorSpherical)
    (sets : list DASH.SRD) (au : AdaptionUnit.AdaptionUnit)
    (headRotation : Quaternion) :
  (forall v, - PI <= GetTheta v) -> (forall v, GetPhi v <= PI) ->
  sets <> [] -> AdaptionUnit.new sets = Some au ->
  reaches_one (AdaptionUnit.normalizedCoordTileMapping au) ->
  exists h, AdaptionUnit.computeTileVisibility au headRotation = Some h /\
            AdaptionUnit.total h = 81%Z.
Proof.
  intros Htheta Hphi _ Hnew Hreach.
  unfold AdaptionUnit.computeTileVisibility.
  destruct (visibility_loop_runs au headRotation
              AdaptionUnit.SAMPLEPOINTS 0 ∅) as [h Hh].
  - rewrite (new_samplePoints sets au Hnew). cbn. lia.
  - intros p.
    destruct (equirect_in_range Htheta Hphi headRotation p) as [Hx Hy].
    apply mapCoordToTile_found; assumption.
  - exists h. split; [exact Hh |].
    apply visibility_loop_returns in Hh. destruct Hh as [Ht _].
    rewrite Ht, total_empty. reflexivity.
Qed.

(** C10: in a histogram returned by [computeTileVisibility] every key has a
    count of at least 1, and there are at most 81 keys. *)
Theorem computeTileVisibility_counts (S : VectorSpherical)
    (au : AdaptionUnit.AdaptionUnit) (headRotation : Quaternion)
    (h : gmap Z Z) :
  AdaptionUnit.computeTileVisibility au headRotation = Some h ->
  (forall tile count, h !! tile = Some count -> (1 <= count)%Z) /\
  (size h <= 81)%nat.
Proof.
  unfold AdaptionUnit.computeTileVisibility. intros Hh.
  apply visibility_loop_returns in Hh. destruct Hh as [_ [Hs Hp]].
  split.
  - apply Hp. intros k c Hk. rewrite lookup_empty in Hk. discriminate.
  - rewrite map_size_empty in Hs. exact Hs.
Qed.

(** ** Concrete instances *)

Lemma atan2_lower (y x : R) : - PI <= Cmath.atan2 y x.
Proof.
  pose proof PI_RGT_0 as Hpi. unfold Cmath.atan2.
  pose proof (atan_bound (y / x)) as Hb.
  destruct (Rlt_dec 0 x) as [Hx | Hx].
  { rewrite Rltb_true by exact Hx. lra. }
  rewrite Rltb_false by lra.
  destruct (Rlt_dec x 0) as [Hx' | Hx'].
  - rewrite Rltb_true by exact Hx'.
    destruct (Rlt_dec y 0) as [Hy | Hy].
    + rewrite Rltb_true by exact Hy.
      assert (0 < y / x).
      { unfold Rdiv. replace (y * / x) with ((- y) * / (- x)) by (field; lra).
        apply Rmult_lt_0_compat; [lra |]. apply Rinv_0_lt_compat. lra. }
      pose proof (atan_increasing 0 (y / x)) as Hinc. rewrite atan_0 in Hinc.
      lra.
    + rewrite Rltb_false by lra. lra.
  - rewrite Rltb_false by lra.
    destruct (Rlt_dec 0 y) as [Hy | Hy].
    + rewrite Rltb_true by exact Hy. lra.
    + rewrite Rltb_false by lra.
      destruct (Rlt_dec y 0) as [Hy' | Hy'].
      * rewrite Rltb_true by exact Hy'. lra.
      * rewrite Rltb_false by lra. lra.
Qed.

Lemma spherical_example_theta (v : VectorCartesian) :
  - PI <= @GetTheta spherical_example v.
Proof. apply atan2_lower. Qed.

Lemma spherical_example_phi (v : VectorCartesian) :
  @GetPhi spherical_example v <= PI.
Proof. apply acos_bound. Qed.

Lemma single_tile_new : AdaptionUnit.new single_tile = Some single_tile_unit.
Proof. reflexivity. Qed.

Lemma single_tile_mapping :
  AdaptionUnit.normalizedCoordTileMapping single_tile_unit
  = [(1 / 1, [(1 / 1, 0%Z)])].
Proof. reflexivity. Qed.

Lemma single_tile_reaches_one :
  reaches_one (AdaptionUnit.normalizedCoordTileMapping single_tile_unit).
Proof.
  rewrite single_tile_mapping. split.
  - apply List.Exists_cons_hd. cbn [fst]. lra.
  - apply List.Forall_cons; [| apply List.Forall_nil].
    apply List.Exists_cons_hd. cbn [fst snd]. lra.
Qed.

(** Evaluates the integer arithmetic under [IZR] and the comparisons of
    the ordered map on closed keys. *)
Ltac eval_index :=
  repeat match goal with
    | |- context [IZR ?z] =>
        lazymatch z with
        | Z0 => fail
        | Zpos _ => fail
        | Zneg _ => fail
        | _ => let z' := eval vm_compute in z in change z with z'
        end
    end;
  repeat (cbn [StdMap.update default from_option];
          unfold Datatypes.id;
          match goal with
          | |- context [Cmath.Rltb ?a ?b] =>
              first [ rewrite (Rltb_true a b) by lra
                    | rewrite (Rltb_false a b) by lra ]
          end).

Lemma grid_new : AdaptionUnit.new grid_tiles = Some grid_unit.
Proof. reflexivity. Qed.

Lemma grid_mapping :
  AdaptionUnit.normalizedCoordTileMapping grid_unit
  = [(1 / 2, [(1 / 2, 0%Z); (2 / 2, 2%Z)]);
     (2 / 2, [(1 / 2, 1%Z); (2 / 2, 3%Z)])].
Proof.
  unfold grid_unit, grid_tiles.
  cbn [AdaptionUnit.normalizedCoordTileMapping AdaptionUnit.fill_mapping
       DASH.x DASH.y DASH.w DASH.h].
  unfold AdaptionUnit.assign_tile. eval_index. reflexivity.
Qed.

Lemma grid_reaches_one :
  reaches_one (AdaptionUnit.normalizedCoordTileMapping grid_unit).
Proof.
  rewrite grid_mapping. split.
  - apply List.Exists_cons_tl, List.Exists_cons_hd. cbn [fst]. lra.
  - apply List.Forall_cons; [| apply List.Forall_cons; [| apply List.Forall_nil]];
      apply List.Exists_cons_tl, List.Exists_cons_hd; cbn [fst snd]; lra.
Qed.

Lemma identity_rotation_norm : Quat.Norm identity_rotation = 1.
Proof. apply Norm_wxyz_axis, Rabs_R1. Qed.

Lemma single_tile_resolves (c : AdaptionUnit.NormalizedCoordinate) :
  AdaptionUnit.x c <= 1 -> AdaptionUnit.y c <= 1 ->
  AdaptionUnit.mapCoordToTile single_tile_unit c = Some 0%Z.
Proof.
  intros Hx Hy. unfold AdaptionUnit.mapCoordToTile.
  rewrite single_tile_mapping. unfold StdMap.lower_bound.
  cbn [List.find fst]. rewrite Rltb_false by lra. cbn [negb List.find fst].
  rewrite Rltb_false by lra. reflexivity.
Qed.

(** With one tile over the whole frame every sample lands in tile 0, for
    every head rotation. *)
Lemma single_tile_visibility (q : Quaternion) :
  @AdaptionUnit.computeTileVisibility spherical_example single_tile_unit q
  = Some {[ 0%Z := 81%Z ]}.
Proof.
  unfold AdaptionUnit.computeTileVisibility.
  assert (Hloop : forall n j h,
             (j + n <= 81)%nat ->
             @AdaptionUnit.visibility_loop spherical_example single_tile_unit
               q n j h
             = Some (Nat.iter n (fun m => AdaptionUnit.increment m 0%Z) h)).
  { induction n as [| n IH]; intros j h Hj; [reflexivity |].
    cbn [AdaptionUnit.visibility_loop].
    destruct (lookup_lt_is_Some_2
                (AdaptionUnit.samplePoints single_tile_unit) j) as [p ->].
    { change (length (AdaptionUnit.samplePoints single_tile_unit)) with 81%nat.
      lia. }
    destruct (@equirect_in_range spherical_example
                spherical_example_theta spherical_example_phi q p) as [Hx Hy].
    rewrite single_tile_resolves by assumption.
    rewrite IH by lia. rewrite Nat.iter_succ_r. reflexivity. }
  rewrite Hloop by (cbn; lia).
  reflexivity.
Qed.

(** ** The theorems at concrete inputs *)

Lemma Norm_wxyz_unit_x : Quat.Norm (Quat.Quaternion_wxyz 0 1 0 0) = 1.
Proof.
  unfold Quat.Norm. unfold_algebra.
  replace (0 * 0 + (1 * 1 + 0 * 0 + 0 * 0)) with 1 by ring. apply sqrt_1.
Qed.

Lemma Norm_wxyz_2 : Quat.Norm (Quat.Quaternion_wxyz 2 0 0 0) <> 0.
Proof.
  unfold Quat.Norm. unfold_algebra.
  assert (0 < sqrt (2 * 2 + (0 * 0 + 0 * 0 + 0 * 0)))
    by (apply sqrt_lt_R0; lra).
  lra.
Qed.

Lemma sinp_example : Quat.sinp (Quat.Quaternion_wxyz 1 0 1 0) = 2.
Proof. unfold Quat.sinp. unfold_algebra. lra. Qed.

(** C2 (as amended) at the grid of 2 x 2 tiles and the identity
    orientation. *)
Lemma computeTileVisibility_total_witness :
  ((forall v, - PI <= @GetTheta spherical_example v) /\
   (forall v, @GetPhi spherical_example v <= PI) /\
   grid_tiles <> [] /\
   AdaptionUnit.new grid_tiles = Some grid_unit /\
   reaches_one (AdaptionUnit.normalizedCoordTileMapping grid_unit)) /\
  exists h,
    @AdaptionUnit.computeTileVisibility spherical_example grid_unit
      identity_rotation = Some h /\
    AdaptionUnit.total h = 81%Z.
Proof.
  assert (Hne : grid_tiles <> []) by discriminate.
  split.
  - exact (conj spherical_example_theta
             (conj spherical_example_phi
                (conj Hne (conj grid_new grid_reaches_one)))).
  - exact (computeTileVisibility_total spherical_example grid_tiles
             grid_unit identity_rotation
             spherical_example_theta spherical_example_phi
             Hne grid_new grid_reaches_one).
Defined.

(** C3 (as amended) at the identity and at the half turns about the x axis
    and about no axis. *)
Lemma SLERP_endpoints_witness :
  let q1 := identity_rotation in
  let q2 := Quat.Quaternion_wxyz 0 1 0 0 in
  let q3 := Quat.Quaternion_wxyz (-1) 0 0 0 in
  (Quat.Norm q1 = 1 /\ Quat.Norm q2 = 1 /\ Quat.Norm q3 = 1) /\
  (Quat.eqb (Quat.SLERP q1 q2 0) q1 = true /\
   Quat.eqb (Quat.SLERP q1 q2 1) q2 = true) /\
  (Quat.eqb (Quat.SLERP q1 q3 0) q1 = true /\
   Quat.eqb (Quat.SLERP q1 q3 1) (Quat.neg q3) = true).
Proof.
  cbv zeta.
  assert (H3 : Quat.Norm (Quat.Quaternion_wxyz (-1) 0 0 0) = 1).
  { apply Norm_wxyz_axis. unfold Rabs. destruct (Rcase_abs (-1)); lra. }
  split; [| split].
  - exact (conj identity_rotation_norm (conj Norm_wxyz_unit_x H3)).
  - destruct (SLERP_endpoints identity_rotation
                (Quat.Quaternion_wxyz 0 1 0 0)
                identity_rotation_norm Norm_wxyz_unit_x) as [H0 [Hnear _]].
    split; [exact H0 |].
    apply Hnear. unfold identity_rotation. unfold_algebra. lra.
  - destruct (SLERP_endpoints identity_rotation
                (Quat.Quaternion_wxyz (-1) 0 0 0)
                identity_rotation_norm H3) as [H0 [_ Hfar]].
    split; [exact H0 |].
    apply Hfar. unfold identity_rotation. unfold_algebra. lra.
Defined.


(** C5 on the norm-corrected path (the identity, flag unset) and on the
    flagged path (a quaternion of [FromEuler]). *)
Lemma Rotation_preserves_norm_witness :
  let v := mkVectorCartesian 1 2 3 in
  let q1 := identity_rotation in
  let q2 := Quat.FromEuler 1 (1 / 2) (-1) in
  (Quat.Norm q1 = 1 /\ Quat.Norm q2 = 1) /\
  Vec.Norm (Quat.Rotation q1 v) = Vec.Norm v /\
  Vec.Norm (Quat.Rotation q2 v) = Vec.Norm v.
Proof.
  cbv zeta. split; [| split].
  - split; [exact identity_rotation_norm | apply FromEuler_norm].
  - exact (Rotation_preserves_norm identity_rotation
             (mkVectorCartesian 1 2 3) identity_rotation_norm).
  - exact (Rotation_preserves_norm (Quat.FromEuler 1 (1 / 2) (-1))
             (mkVectorCartesian 1 2 3) (FromEuler_norm 1 (1 / 2) (-1))).
Defined.

(** C6 at yaw 1, pitch 1/2 and roll -1 (radians). *)
Lemma FromEuler_ToEuler_witness :
  (- PI < 1 <= PI /\ - PI < -1 <= PI /\ Rabs (1 / 2) < 89 * PI / 180) /\
  Quat.ToEuler (Quat.FromEuler 1 (1 / 2) (-1))
  = mkVectorCartesian (-1) (1 / 2) 1.
Proof.
  pose proof PI2_1 as Hpi.
  assert (Hyaw : - PI < 1 <= PI) by lra.
  assert (Hroll : - PI < -1 <= PI) by lra.
  assert (Hpitch : Rabs (1 / 2) < 89 * PI / 180).
  { rewrite Rabs_pos_eq by lra. lra. }
  split; [exact (conj Hyaw (conj Hroll Hpitch)) |].
  exact (FromEuler_ToEuler 1 (1 / 2) (-1) Hyaw Hroll Hpitch).
Defined.

(** C7 at the quaternion 2 after [Normalize]. *)
Lemma flag_implies_unit_witness :
  let q := Quat.Normalize (Quat.Quaternion_wxyz 2 0 0 0) in
  (produced q /\ m_isNormalized q = true) /\ Quat.Norm q = 1.
Proof.
  cbv zeta.
  assert (Hp : produced (Quat.Normalize (Quat.Quaternion_wxyz 2 0 0 0))).
  { apply produced_Normalize; [apply produced_wxyz | exact Norm_wxyz_2]. }
  split; [split; [exact Hp | reflexivity] |].
  exact (flag_implies_unit _ Hp eq_refl).
Defined.

(** C8 at [w = 1, y = 1], where the pitch sine is 2. *)
Lemma ToEuler_clamps_pitch_witness :
  1 <= Rabs (Quat.sinp (Quat.Quaternion_wxyz 1 0 1 0)) /\
  exists roll yaw,
    Quat.ToEuler (Quat.Quaternion_wxyz 1 0 1 0)
    = mkVectorCartesian roll (PI / 2) yaw.
Proof.
  assert (Habs : 1 <= Rabs (Quat.sinp (Quat.Quaternion_wxyz 1 0 1 0))).
  { rewrite sinp_example, Rabs_pos_eq; lra. }
  split; [exact Habs |].
  destruct (ToEuler_clamps_pitch (Quat.Quaternion_wxyz 1 0 1 0) Habs)
    as [roll [pitch [yaw [Heq [Hpos _]]]]].
  exists roll, yaw. rewrite Heq, Hpos; [reflexivity |].
  rewrite sinp_example. lra.
Defined.

(** C9 at the identity, which is reduced through the axis [(1, 0, 0)], and
    at the pure quaternion [i]. *)
Lemma AverageAngularVelocity_same_witness :
  let q1 := identity_rotation in
  let q2 := Quat.Quaternion_wxyz 0 1 0 0 in
  (Quat.Norm q1 = 1 /\ Quat.IsPur q1 = false /\
   Quat.Norm q2 = 1 /\ Quat.IsPur q2 = true /\ 0 < 1 / 25) /\
  Quat.AverageAngularVelocity q1 q1 (1 / 25) = Vec.zero /\
  Quat.AverageAngularVelocity q2 q2 (1 / 25) = Vec.zero.
Proof.
  cbv zeta.
  assert (HdT : 0 < 1 / 25) by lra.
  split; [| split].
  - split; [exact identity_rotation_norm |].
    split; [apply Reqb_false; cbn [identity_rotation Quat.Quaternion_wxyz m_w]; lra |].
    split; [exact Norm_wxyz_unit_x |].
    split; [apply Reqb_true; reflexivity | exact HdT].
  - exact (AverageAngularVelocity_same identity_rotation (1 / 25)
             identity_rotation_norm HdT).
  - exact (AverageAngularVelocity_same (Quat.Quaternion_wxyz 0 1 0 0)
             (1 / 25) Norm_wxyz_unit_x HdT).
Defined.

(** C10 at the one-tile layout and the identity orientation. *)
Lemma computeTileVisibility_counts_witness :
  @AdaptionUnit.computeTileVisibility spherical_example single_tile_unit
    identity_rotation = Some {[ 0%Z := 81%Z ]} /\
  (forall tile count,
      ({[ 0%Z := 81%Z ]} : gmap Z Z) !! tile = Some count ->
      (1 <= count)%Z) /\
  (size ({[ 0%Z := 81%Z ]} : gmap Z Z) <= 81)%nat.
Proof.
  split; [apply single_tile_visibility |].
  exact (computeTileVisibility_counts spherical_example single_tile_unit
           identity_rotation _ (single_tile_visibility identity_rotation)).
Defined.

(** * Further properties of the orientation algebra *)

(** ** The Hamilton product *)

Lemma Quat_norm_nonzero_dot (q : Quaternion) :
  Quat.Norm q <> 0 -> Quat.DotProduct q q <> 0.
Proof.
  intros Hn Hd. apply Hn. unfold Quat.Norm. rewrite Hd. apply sqrt_0.
Qed.

Lemma Quat_norm_nonneg (q : Quaternion) : 0 <= Quat.Norm q.
Proof. apply sqrt_pos. Qed.

Lemma mul_dot (p q : Quaternion) :
  Quat.DotProduct (Quat.mul p q) (Quat.mul p q)
  = Quat.DotProduct p p * Quat.DotProduct q q.
Proof.
  destruct p as [w1 [x1 y1 z1] f1], q as [w2 [x2 y2 z2] f2].
  unfold_algebra. ring.
Qed.

(** X1: the Hamilton product is associative. *)
Theorem mul_associative (p q r : Quaternion) :
  Quat.mul (Quat.mul p q) r = Quat.mul p (Quat.mul q r).
Proof.
  destruct p as [w1 [x1 y1 z1] f1], q as [w2 [x2 y2 z2] f2],
    r as [w3 [x3 y3 z3] f3].
  unfold_algebra. f_equal; [| f_equal]; ring.
Qed.

Lemma mul_norm_product (p q : Quaternion) :
  Quat.Norm (Quat.mul p q) = Quat.Norm p * Quat.Norm q.
Proof.
  unfold Quat.Norm. rewrite mul_dot.
  apply sqrt_mult; apply Quat_dot_self_nonneg.
Qed.

(** X2: the norm of a Hamilton product is the product of the norms, and
    its squared norm the product of the squared norms. *)
Theorem mul_norm (p q : Quaternion) :
  Quat.Norm (Quat.mul p q) = Quat.Norm p * Quat.Norm q /\
  Quat.DotProduct (Quat.mul p q) (Quat.mul p q)
  = Quat.DotProduct p p * Quat.DotProduct q q.
Proof. split; [apply mul_norm_product | apply mul_dot]. Qed.

(** X3: conjugation reverses the Hamilton product, and the conjugate of
    the conjugate compares equal to the quaternion. *)
Theorem Conj_mul (p q : Quaternion) :
  Quat.Conj (Quat.mul p q) = Quat.mul (Quat.Conj q) (Quat.Conj p) /\
  Quat.eqb (Quat.Conj (Quat.Conj q)) q = true.
Proof.
  split.
  - destruct p as [w1 [x1 y1 z1] f1], q as [w2 [x2 y2 z2] f2].
    unfold_algebra. f_equal; [| f_equal]; ring.
  - apply Quat_eqb_components.
    + reflexivity.
    + destruct q as [w [x y z] f]. unfold_algebra. f_equal; ring.
Qed.

Lemma Inv_valid (q : Quaternion) :
  Quat.Norm q <> 0 -> (m_isNormalized q = true -> Quat.Norm q = 1) ->
  Quat.Inv q = Quat.div (Quat.Conj q) (Quat.DotProduct q q).
Proof.
  intros Hnz Hflag. unfold Quat.Inv.
  destruct (m_isNormalized q) eqn:Hf.
  - rewrite (Quat_norm_1_dot q (Hflag eq_refl)).
    destruct q as [w [x y z] f]. unfold_algebra.
    f_equal; [| f_equal]; field.
  - rewrite Quat_norm_sqr. reflexivity.
Qed.

(** X4: a quaternion of non-zero norm whose flag, if set, is right has
    [Inv] as its inverse on both sides. *)
Theorem mul_Inv (q : Quaternion) :
  Quat.Norm q <> 0 -> (m_isNormalized q = true -> Quat.Norm q = 1) ->
  Quat.mul q (Quat.Inv q) = Quat.Quaternion_w 1 /\
  Quat.mul (Quat.Inv q) q = Quat.Quaternion_w 1.
Proof.
  intros Hnz Hflag. rewrite (Inv_valid q Hnz Hflag).
  pose proof (Quat_norm_nonzero_dot q Hnz) as Hd.
  destruct q as [w [x y z] f]. unfold_algebra in Hd. unfold_algebra.
  split; (f_equal; [| f_equal]; field; exact Hd).
Qed.

(** ** Rotation as a linear isometry *)

Lemma Rotation_valid (q : Quaternion) (v : VectorCartesian) :
  Quat.Norm q <> 0 -> (m_isNormalized q = true -> Quat.Norm q = 1) ->
  Quat.Rotation q v
  = Vec.div (Quat.GetV (Quat.mul (Quat.mul_vec q v) (Quat.Conj q)))
            (Quat.DotProduct q q).
Proof.
  intros Hnz Hflag. unfold Quat.Rotation.
  destruct (m_isNormalized q) eqn:Hf.
  - rewrite (Quat_norm_1_dot q (Hflag eq_refl)).
    destruct (Quat.GetV (Quat.mul (Quat.mul_vec q v) (Quat.Conj q)))
      as [a b c].
    unfold Vec.div; cbn [GetX GetY GetZ]. f_equal; field.
  - rewrite Quat_norm_sqr. reflexivity.
Qed.

(** X5: rotating by a Hamilton product is rotating by the right factor and
    then by the left one. *)
Theorem Rotation_mul (p q : Quaternion) (v : VectorCartesian) :
  Quat.Norm p <> 0 -> (m_isNormalized p = true -> Quat.Norm p = 1) ->
  Quat.Norm q <> 0 -> (m_isNormalized q = true -> Quat.Norm q = 1) ->
  Quat.Rotation (Quat.mul p q) v = Quat.Rotation p (Quat.Rotation q v).
Proof.
  intros Hp Hfp Hq Hfq.
  assert (Hpq : Quat.Norm (Quat.mul p q) <> 0).
  { rewrite mul_norm_product. apply Rmult_integral_contrapositive. tauto. }
  rewrite (Rotation_valid (Quat.mul p q) v Hpq) by discriminate.
  rewrite (Rotation_valid q v Hq Hfq).
  rewrite (Rotation_valid p _ Hp Hfp).
  rewrite mul_dot.
  pose proof (Quat_norm_nonzero_dot p Hp) as Dp.
  pose proof (Quat_norm_nonzero_dot q Hq) as Dq.
  destruct p as [w1 [x1 y1 z1] f1], q as [w2 [x2 y2 z2] f2], v as [a b c].
  unfold_algebra in Dp. unfold_algebra in Dq. unfold_algebra.
  f_equal; field; split; assumption.
Qed.

(** X6: a quaternion and its negation rotate every vector alike. *)
Theorem Rotation_neg (q : Quaternion) (v : VectorCartesian) :
  Quat.Norm q <> 0 -> (m_isNormalized q = true -> Quat.Norm q = 1) ->
  Quat.Rotation (Quat.neg q) v = Quat.Rotation q v.
Proof.
  intros Hq Hfq.
  assert (Hd : Quat.DotProduct (Quat.neg q) (Quat.neg q)
               = Quat.DotProduct q q) by apply (neg_dot q q).
  assert (Hn : Quat.Norm (Quat.neg q) <> 0).
  { unfold Quat.Norm. rewrite Hd. exact Hq. }
  rewrite (Rotation_valid (Quat.neg q) v Hn) by discriminate.
  rewrite (Rotation_valid q v Hq Hfq), Hd.
  pose proof (Quat_norm_nonzero_dot q Hq) as Dq.
  destruct q as [w [x y z] f], v as [a b c].
  unfold_algebra in Dq. unfold_algebra.
  f_equal; field; assumption.
Qed.

(** X7: rotation keeps the dot product of two vectors, hence lengths and
    angles, also for a quaternion of non-zero norm other than 1 whose flag
    is unset. *)
Theorem Rotation_preserves_dot (q : Quaternion) (a b : VectorCartesian) :
  Quat.Norm q <> 0 -> (m_isNormalized q = true -> Quat.Norm q = 1) ->
  Vec.DotProduct (Quat.Rotation q a) (Quat.Rotation q b)
  = Vec.DotProduct a b /\
  Vec.Norm (Quat.Rotation q a) = Vec.Norm a.
Proof.
  intros Hq Hfq.
  assert (Hdot : forall c d,
             Vec.DotProduct (Quat.Rotation q c) (Quat.Rotation q d)
             = Vec.DotProduct c d).
  { intros c d. rewrite !(Rotation_valid q _ Hq Hfq).
    pose proof (Quat_norm_nonzero_dot q Hq) as Dq.
    destruct q as [w [x y z] f], c as [c1 c2 c3], d as [d1 d2 d3].
    unfold_algebra in Dq. unfold_algebra. field. assumption. }
  split; [apply Hdot |]. unfold Vec.Norm. rewrite Hdot. reflexivity.
Qed.

(** ** Distances *)

Lemma atan2_of_nonneg (y x : R) : 0 <= y -> 0 <= Cmath.atan2 y x <= PI.
Proof.
  intros Hy. pose proof PI_RGT_0 as Hpi. unfold Cmath.atan2.
  pose proof (atan_bound (y / x)) as Hb.
  destruct (Rlt_dec 0 x) as [Hx | Hx].
  { rewrite Rltb_true by exact Hx.
    assert (0 <= y / x).
    { unfold Rdiv. apply Rmult_le_pos; [exact Hy |].
      left. apply Rinv_0_lt_compat. exact Hx. }
    destruct (Req_dec (y / x) 0) as [-> | Hne]; [rewrite atan_0; lra |].
    pose proof (atan_increasing 0 (y / x)) as Hinc. rewrite atan_0 in Hinc.
    lra. }
  rewrite Rltb_false by lra.
  destruct (Rlt_dec x 0) as [Hx' | Hx'].
  - rewrite Rltb_true by exact Hx'. rewrite Rltb_false by lra.
    assert (y / x <= 0).
    { unfold Rdiv. replace (y * / x) with (- (y * / (- x))) by (field; lra).
      assert (0 <= y * / - x); [| lra].
      apply Rmult_le_pos; [exact Hy |].
      left. apply Rinv_0_lt_compat. lra. }
    destruct (Req_dec (y / x) 0) as [-> | Hne]; [rewrite atan_0; lra |].
    pose proof (atan_increasing (y / x) 0) as Hinc. rewrite atan_0 in Hinc.
    lra.
  - rewrite Rltb_false by lra.
    destruct (Rlt_dec 0 y) as [Hy' | Hy'].
    + rewrite Rltb_true by exact Hy'. lra.
    + rewrite Rltb_false by lra. rewrite Rltb_false by lra. lra.
Qed.

Lemma atan2_upper (y x : R) : Cmath.atan2 y x <= PI.
Proof.
  destruct (Rle_dec 0 y) as [Hy | Hy]; [apply atan2_of_nonneg; exact Hy |].
  pose proof PI_RGT_0 as Hpi. unfold Cmath.atan2.
  pose proof (atan_bound (y / x)) as Hb.
  destruct (Cmath.Rltb 0 x); [lra |].
  destruct (Cmath.Rltb x 0).
  - rewrite Rltb_true by lra. lra.
  - rewrite Rltb_false by lra. rewrite Rltb_true by lra. lra.
Qed.

Lemma Vec_norm_1_dot (v : VectorCartesian) :
  Vec.DotProduct v v = 1 -> Vec.Norm v = 1.
Proof. intros H. unfold Vec.Norm. rewrite H. apply sqrt_1. Qed.

Lemma Rotation_axis_dot (q : Quaternion) :
  Quat.Norm q <> 0 -> (m_isNormalized q = true -> Quat.Norm q = 1) ->
  let r := Quat.Rotation q (mkVectorCartesian 1 0 0) in
  Vec.DotProduct r r = 1.
Proof.
  intros Hq Hfq. cbv zeta. rewrite (Rotation_valid q _ Hq Hfq).
  pose proof (Quat_norm_nonzero_dot q Hq) as Dq.
  destruct q as [w [x y z] f].
  unfold_algebra in Dq. unfold_algebra. field. assumption.
Qed.

(** X8: the orthodromic distance from an orientation to itself is 0, for
    every quaternion of non-zero norm whose flag, if set, is right. *)
Theorem OrthodromicDistance_self (q : Quaternion) :
  Quat.Norm q <> 0 -> (m_isNormalized q = true -> Quat.Norm q = 1) ->
  Quat.OrthodromicDistance q q = 0.
Proof.
  intros Hq Hfq. unfold Quat.OrthodromicDistance. cbv zeta.
  pose proof (Rotation_axis_dot q Hq Hfq) as Hr. cbv zeta in Hr.
  destruct (Quat.Rotation q (mkVectorCartesian 1 0 0)) as [a b c].
  unfold_algebra in Hr.
  assert (Hw : - m_w (Quat.mul (Quat.Quaternion_v (mkVectorCartesian a b c))
                        (Quat.Quaternion_v (mkVectorCartesian a b c))) = 1).
  { unfold_algebra. lra. }
  assert (Hv : m_v (Quat.mul (Quat.Quaternion_v (mkVectorCartesian a b c))
                      (Quat.Quaternion_v (mkVectorCartesian a b c)))
               = Vec.zero).
  { unfold_algebra. f_equal; ring. }
  rewrite Hw, Hv, Vec_norm_zero.
  unfold Cmath.atan2. rewrite Rltb_true by lra.
  replace (0 / 1) with 0 by field. apply atan_0.
Qed.

(** X9: the orthodromic distance is symmetric and lies in [[0, PI]], for
    every pair of quaternions of non-zero norm whose flags, if set, are
    right. *)
Theorem OrthodromicDistance_symmetric (q1 q2 : Quaternion) :
  Quat.Norm q1 <> 0 -> (m_isNormalized q1 = true -> Quat.Norm q1 = 1) ->
  Quat.Norm q2 <> 0 -> (m_isNormalized q2 = true -> Quat.Norm q2 = 1) ->
  Quat.OrthodromicDistance q1 q2 = Quat.OrthodromicDistance q2 q1 /\
  0 <= Quat.OrthodromicDistance q1 q2 <= PI.
Proof.
  intros _ _ _ _.
  unfold Quat.OrthodromicDistance. cbv zeta. split.
  - destruct (Quat.Rotation q1 (mkVectorCartesian 1 0 0)) as [a1 b1 c1].
    destruct (Quat.Rotation q2 (mkVectorCartesian 1 0 0)) as [a2 b2 c2].
    f_equal.
    + unfold Vec.Norm. f_equal. unfold_algebra. ring.
    + unfold_algebra. ring.
  - apply atan2_of_nonneg. apply sqrt_pos.
Qed.

Lemma sum_squares_zero (a b c d : R) :
  a * a + (b * b + c * c + d * d) = 0 -> a = 0 /\ b = 0 /\ c = 0 /\ d = 0.
Proof.
  intros H.
  pose proof (Rle_0_sqr a) as Ha. pose proof (Rle_0_sqr b) as Hb.
  pose proof (Rle_0_sqr c) as Hc. pose proof (Rle_0_sqr d) as Hd.
  unfold Rsqr in *.
  assert (Ea : a * a = 0) by lra. assert (Eb : b * b = 0) by lra.
  assert (Ec : c * c = 0) by lra. assert (Ed : d * d = 0) by lra.
  apply Rmult_integral in Ea, Eb, Ec, Ed. tauto.
Qed.

Lemma Vec_eqb_true (a b : VectorCartesian) : Vec.eqb a b = true <-> a = b.
Proof.
  unfold Vec.eqb, Cmath.Reqb. split.
  - destruct a as [a1 a2 a3], b as [b1 b2 b3]; cbn [GetX GetY GetZ].
    destruct (Req_dec_T a1 b1), (Req_dec_T a2 b2), (Req_dec_T a3 b3);
      cbn; try discriminate.
    intros _. subst. reflexivity.
  - intros <-.
    destruct (Req_dec_T (GetX a) (GetX a)), (Req_dec_T (GetY a) (GetY a)),
      (Req_dec_T (GetZ a) (GetZ a)); cbn; congruence.
Qed.

Lemma Quat_eqb_true (p q : Quaternion) :
  Quat.eqb p q = true <-> m_w p = m_w q /\ m_v p = m_v q.
Proof.
  unfold Quat.eqb. rewrite andb_true_iff, Vec_eqb_true.
  unfold Cmath.Reqb. destruct (Req_dec_T (m_w p) (m_w q)); split;
    intros [H1 H2]; split; congruence.
Qed.

(** X10: [Distance] is symmetric, and it is 0 exactly for two quaternions
    that [operator==] finds equal, whatever their flags. *)
Theorem Distance_zero_iff_eq (q1 q2 : Quaternion) :
  Quat.Distance q1 q2 = Quat.Distance q2 q1 /\
  (Quat.Distance q1 q2 = 0 <-> Quat.eqb q1 q2 = true).
Proof.
  split.
  - unfold Quat.Distance, Quat.Norm. f_equal.
    destruct q1 as [w1 [x1 y1 z1] f1], q2 as [w2 [x2 y2 z2] f2].
    unfold_algebra. ring.
  - rewrite Quat_eqb_true. unfold Quat.Distance, Quat.Norm. split.
    + intros H. apply sqrt_eq_0 in H; [| apply Quat_dot_self_nonneg].
      destruct q1 as [w1 [x1 y1 z1] f1], q2 as [w2 [x2 y2 z2] f2].
      unfold_algebra in H. cbn [m_w m_v].
      destruct (sum_squares_zero _ _ _ _ H) as (Hw & Hx & Hy & Hz).
      split; [lra | f_equal; lra].
    + intros [Hw Hv].
      destruct q1 as [w1 [x1 y1 z1] f1], q2 as [w2 [x2 y2 z2] f2].
      cbn [m_w m_v] in Hw, Hv. injection Hv as Hx Hy Hz. subst.
      unfold_algebra.
      match goal with |- sqrt ?e = 0 => replace e with 0 by ring end.
      apply sqrt_0.
Qed.

(** ** Normalization and Euler angles *)

(** X11: on a quaternion of non-zero norm whose flag is unset, [Normalize]
    leaves a value of norm 1 with the flag set, which scaled by the old norm
    is the old value; [Normalized] returns the same components with the
    flag unset; a second [Normalize] changes nothing. *)
Theorem Normalize_unit (q : Quaternion) :
  Quat.Norm q <> 0 -> m_isNormalized q = false ->
  Quat.Norm (Quat.Normalize q) = 1 /\
  m_isNormalized (Quat.Normalize q) = true /\
  Quat.eqb (Quat.scale (Quat.Normalize q) (Quat.Norm q)) q = true /\
  Quat.eqb (Quat.Normalized q) (Quat.Normalize q) = true /\
  m_isNormalized (Quat.Normalized q) = false /\
  Quat.Normalize (Quat.Normalize q) = Quat.Normalize q.
Proof.
  intros Hnz Hf. split; [apply Normalize_norm; assumption |].
  split; [apply Normalize_flag |].
  unfold Quat.Normalize, Quat.Normalized. rewrite Hf. cbn [negb].
  split; [| split; [| split]].
  - apply Quat_eqb_components.
    + unfold_algebra. field. exact Hnz.
    + destruct q as [w [x y z] f]. generalize dependent (Quat.Norm
        {| m_w := w; m_v := {| GetX := x; GetY := y; GetZ := z |};
           m_isNormalized := f |}).
      intros n Hn. unfold_algebra. f_equal; field; exact Hn.
  - apply Quat_eqb_components; reflexivity.
  - reflexivity.
  - reflexivity.
Qed.

(** X12: [FromEuler] returns, for all angles, a quaternion of norm 1 with
    the flag set. *)
Theorem FromEuler_unit (yaw pitch roll : R) :
  Quat.Norm (Quat.FromEuler yaw pitch roll) = 1 /\
  m_isNormalized (Quat.FromEuler yaw pitch roll) = true.
Proof. split; [apply FromEuler_norm | apply FromEuler_flag]. Qed.

(** X13: for every quaternion the angles of [ToEuler] are in range: roll and
    yaw in [[-PI, PI]] and pitch in [[-PI/2, PI/2]]. *)
Theorem ToEuler_range (q : Quaternion) :
  - PI <= GetX (Quat.ToEuler q) <= PI /\
  - (PI / 2) <= GetY (Quat.ToEuler q) <= PI / 2 /\
  - PI <= GetZ (Quat.ToEuler q) <= PI.
Proof.
  pose proof PI_RGT_0 as Hpi. split; [| split].
  - unfold Quat.ToEuler; cbn [GetX]. split;
      [apply atan2_lower | apply atan2_upper].
  - rewrite ToEuler_pitch.
    destruct (Cmath.Rleb 1 (Cmath.fabs (Quat.sinp q))).
    + unfold Cmath.copysign, PI_L. rewrite (Rabs_pos_eq (PI / 2)) by lra.
      destruct (Cmath.Rltb (Quat.sinp q) 0); lra.
    + apply asin_bound.
  - unfold Quat.ToEuler; cbn [GetZ]. split;
      [apply atan2_lower | apply atan2_upper].
Qed.

(** ** Powers *)

Lemma Vec_norm_scale_abs (s : R) (v : VectorCartesian) :
  Vec.Norm (Vec.scale s v) = Rabs s * Vec.Norm v.
Proof.
  unfold Vec.Norm.
  replace (Vec.DotProduct (Vec.scale s v) (Vec.scale s v))
    with (Rsqr s * Vec.DotProduct v v)
    by (destruct v; unfold Rsqr; unfold_algebra; ring).
  rewrite sqrt_mult; [| apply Rle_0_sqr | apply Vec_dot_self_nonneg].
  rewrite sqrt_Rsqr_abs. reflexivity.
Qed.

Lemma Vec_norm_nonzero (v : VectorCartesian) :
  v <> Vec.zero -> Vec.Norm v <> 0.
Proof. intros Hv Hn. apply Hv, Vec_norm_0, Hn. Qed.

Lemma unit_direction_dot (v : VectorCartesian) :
  Vec.Norm v <> 0 ->
  let n := Vec.div v (Vec.Norm v) in Vec.DotProduct n n = 1.
Proof.
  intros Hv. cbv zeta. rewrite Vec_dot_div by exact Hv.
  rewrite Vec_norm_sqr. field. rewrite <- Vec_norm_sqr. nra.
Qed.

(** The logarithm of a quaternion of norm 1 with a non-zero vector part. *)
Lemma Log_unit (q : Quaternion) :
  Quat.Norm q = 1 -> m_v q <> Vec.zero ->
  Quat.Log q
  = Quat.Quaternion_wv 0
      (Vec.scale (acos (m_w q)) (Vec.div (m_v q) (Vec.Norm (m_v q)))) /\
  0 < acos (m_w q) < PI.
Proof.
  intros Hn Hv. pose proof (Vec_norm_nonzero _ Hv) as Hvn.
  pose proof (Quat_norm_1_dot q Hn) as Hd.
  assert (Hvpos : 0 < Vec.DotProduct (m_v q) (m_v q)).
  { rewrite <- Vec_norm_sqr. nra. }
  assert (Hw : -1 < m_w q < 1).
  { unfold Quat.DotProduct in Hd. nra. }
  split; [| apply acos_bound_lt; exact Hw].
  unfold Quat.Log. rewrite Hn. unfold Cmath.log. rewrite ln_1.
  rewrite (Reqb_false _ _ Hvn), (Reqb_false 1 0) by lra. cbn [negb andb].
  replace (m_w q / 1) with (m_w q) by field. reflexivity.
Qed.

Lemma pow_polar (q : Quaternion) (k : R) :
  Quat.Norm q = 1 -> m_v q <> Vec.zero ->
  Quat.pow q k
  = Quat.Quaternion_wv
      (cos (k * acos (m_w q)))
      (Vec.scale (sin (k * acos (m_w q)))
                 (Vec.div (m_v q) (Vec.Norm (m_v q)))).
Proof.
  intros Hn Hv. destruct (Log_unit q Hn Hv) as [HL Hth].
  pose proof (unit_direction_dot (m_v q) (Vec_norm_nonzero _ Hv)) as Hnn.
  cbv zeta in Hnn.
  unfold Quat.pow. rewrite HL.
  set (th := acos (m_w q)) in *.
  remember (Vec.div (m_v q) (Vec.Norm (m_v q))) as n eqn:En. clear En.
  assert (Hnorm_n : Vec.Norm n = 1) by (apply Vec_norm_1_dot, Hnn).
  unfold Quat.scale, Quat.Quaternion_wv; cbn [m_w m_v].
  set (u := Vec.scale k (Vec.scale th n)).
  assert (Hu : Vec.Norm u = Rabs k * th).
  { unfold u. rewrite !Vec_norm_scale_abs, Hnorm_n.
    rewrite (Rabs_pos_eq th) by lra. ring. }
  unfold Quat.Exp; cbn [m_w m_v]. fold u. rewrite Hu.
  rewrite Rmult_0_l, exp_0, Rmult_1_r.
  destruct (Rtotal_order k 0) as [Hk | [Hk | Hk]].
  - (* k < 0 *)
    rewrite (Rabs_left k Hk).
    rewrite Reqb_false by nra. cbn [negb].
    replace (- k * th) with (- (k * th)) by ring.
    rewrite cos_neg, sin_neg.
    unfold u. destruct n as [a b c]. unfold_algebra.
    do 2 f_equal; field; lra.
  - (* k = 0 *)
    subst k. rewrite Rabs_R0, !Rmult_0_l.
    rewrite Reqb_true by reflexivity. cbn [negb].
    rewrite sin_0.
    unfold u. destruct n as [a b c]. unfold_algebra. do 2 f_equal; ring.
  - (* 0 < k *)
    rewrite (Rabs_pos_eq k) by lra.
    rewrite Reqb_false by nra. cbn [negb].
    unfold u. destruct n as [a b c]. unfold_algebra.
    do 2 f_equal; field; lra.
Qed.

(** X14: de Moivre's formula.  A quaternion of norm 1 with a non-zero
    vector part, of angle [acos w] and unit axis [v / |v|], has as its
    [k]-th power the quaternion of [k] times the angle and the same axis,
    for every real [k]. *)
Theorem pow_de_Moivre (q : Quaternion) (k : R) :
  Quat.Norm q = 1 -> m_v q <> Vec.zero ->
  Quat.pow q k
  = Quat.Quaternion_wv
      (cos (k * acos (m_w q)))
      (Vec.scale (sin (k * acos (m_w q)))
                 (Vec.div (m_v q) (Vec.Norm (m_v q)))).
Proof. apply pow_polar. Qed.

Lemma Norm_w (w : R) : Quat.Norm (Quat.Quaternion_w w) = Rabs w.
Proof.
  unfold Quat.Norm. unfold_algebra.
  replace (w * w + (0 * 0 + 0 * 0 + 0 * 0)) with (Rsqr w)
    by (unfold Rsqr; ring).
  apply sqrt_Rsqr_abs.
Qed.

Lemma pow_zero_vector (w k : R) (f : bool) :
  Quat.pow (mkQuaternion w Vec.zero f) k
  = Quat.Quaternion_w (Rpower (Rabs w) k).
Proof.
  unfold Quat.pow, Quat.Log. cbn [m_w m_v].
  change (Quat.Norm (mkQuaternion w Vec.zero f))
    with (Quat.Norm (Quat.Quaternion_w w)).
  rewrite Norm_w, Vec_norm_zero, Reqb_true by reflexivity.
  cbn [negb andb].
  unfold Quat.scale, Quat.Quaternion_wv; cbn [m_w m_v].
  replace (Vec.scale k Vec.zero) with Vec.zero
    by (unfold_algebra; f_equal; ring).
  unfold Quat.Exp; cbn [m_w m_v].
  rewrite Vec_norm_zero, Reqb_true by reflexivity. cbn [negb].
  rewrite cos_0, Rmult_1_l. unfold Cmath.log, Rpower, Quat.Quaternion_w.
  rewrite (Rmult_comm k). reflexivity.
Qed.

(** X15: the logarithm drops the sign of a real quaternion: the [k]-th
    power of the real quaternion [w], [w <> 0], is the real quaternion
    [|w|] to the [k]; every power of [-1] and of [1] is [1]. *)
Theorem pow_real (w k : R) :
  w <> 0 ->
  Quat.pow (Quat.Quaternion_w w) k = Quat.Quaternion_w (Rpower (Rabs w) k) /\
  (Rabs w = 1 -> Quat.pow (Quat.Quaternion_w w) k = Quat.Quaternion_w 1).
Proof.
  intros _. split; [apply pow_zero_vector |].
  intros Hw. unfold Quat.Quaternion_w at 1. rewrite pow_zero_vector, Hw.
  f_equal. unfold Rpower. rewrite ln_1, Rmult_0_r. apply exp_0.
Qed.

Lemma unit_zero_vector (q : Quaternion) :
  Quat.Norm q = 1 -> m_v q = Vec.zero -> Rabs (m_w q) = 1.
Proof.
  intros Hn Hv. rewrite <- Hn. symmetry.
  destruct q as [w v f]. cbn [m_v m_w] in *. subst v.
  change (Quat.Norm (mkQuaternion w Vec.zero f))
    with (Quat.Norm (Quat.Quaternion_w w)).
  apply Norm_w.
Qed.

Lemma pow_unit_zero_vector (q : Quaternion) (k : R) :
  Quat.Norm q = 1 -> m_v q = Vec.zero ->
  Quat.pow q k = Quat.Quaternion_w 1.
Proof.
  intros Hn Hv. pose proof (unit_zero_vector q Hn Hv) as Hw.
  destruct q as [w v f]. cbn [m_v m_w] in *. subst v.
  rewrite pow_zero_vector, Hw. f_equal.
  unfold Rpower. rewrite ln_1, Rmult_0_r. apply exp_0.
Qed.

Lemma Vec_zero_dec (v : VectorCartesian) : v = Vec.zero \/ v <> Vec.zero.
Proof.
  destruct (Vec.eqb v Vec.zero) eqn:He.
  - left. apply Vec_eqb_true. exact He.
  - right. intros H. apply Vec_eqb_true in H. congruence.
Qed.

Lemma pow_unit_dot (q : Quaternion) (k : R) :
  Quat.Norm q = 1 ->
  Quat.DotProduct (Quat.pow q k) (Quat.pow q k) = 1.
Proof.
  intros Hn. destruct (Vec_zero_dec (m_v q)) as [Hv | Hv].
  - rewrite (pow_unit_zero_vector q k Hn Hv). unfold_algebra. ring.
  - rewrite (pow_polar q k Hn Hv).
    pose proof (unit_direction_dot (m_v q) (Vec_norm_nonzero _ Hv)) as Hnn.
    cbv zeta in Hnn.
    destruct (Vec.div (m_v q) (Vec.Norm (m_v q))) as [a b c].
    pose proof (sin2_cos2 (k * acos (m_w q))) as Hsc. unfold Rsqr in Hsc.
    set (s := sin (k * acos (m_w q))) in *.
    set (c0 := cos (k * acos (m_w q))) in *.
    unfold_algebra in Hnn. unfold_algebra.
    transitivity (c0 * c0 + s * s * (a * a + b * b + c * c)); [ring |].
    rewrite Hnn. lra.
Qed.

(** X16: every real power of a quaternion of norm 1 has norm 1. *)
Theorem pow_unit_norm (q : Quaternion) (k : R) :
  Quat.Norm q = 1 -> Quat.Norm (Quat.pow q k) = 1.
Proof.
  intros Hn. unfold Quat.Norm. rewrite (pow_unit_dot q k Hn). apply sqrt_1.
Qed.

(** X17: powers of one quaternion of norm 1 multiply by adding the
    exponents. *)
Theorem pow_add (q : Quaternion) (a b : R) :
  Quat.Norm q = 1 ->
  Quat.mul (Quat.pow q a) (Quat.pow q b) = Quat.pow q (a + b).
Proof.
  intros Hn. destruct (Vec_zero_dec (m_v q)) as [Hv | Hv].
  - rewrite !(pow_unit_zero_vector q _ Hn Hv).
    unfold_algebra. f_equal; [| f_equal]; ring.
  - rewrite !(pow_polar q _ Hn Hv).
    pose proof (unit_direction_dot (m_v q) (Vec_norm_nonzero _ Hv)) as Hnn.
    cbv zeta in Hnn.
    destruct (Vec.div (m_v q) (Vec.Norm (m_v q))) as [x y z].
    rewrite Rmult_plus_distr_r, cos_plus, sin_plus.
    set (sa := sin (a * acos (m_w q))). set (ca := cos (a * acos (m_w q))).
    set (sb := sin (b * acos (m_w q))). set (cb := cos (b * acos (m_w q))).
    unfold_algebra in Hnn. unfold_algebra.
    f_equal; [| f_equal]; try ring.
    transitivity (ca * cb - sa * sb * (x * x + y * y + z * z)); [ring |].
    rewrite Hnn. ring.
Qed.

(** ** Interpolation, axis and angle, angular velocity *)

Lemma Conj_dot (q : Quaternion) :
  Quat.DotProduct (Quat.Conj q) (Quat.Conj q) = Quat.DotProduct q q.
Proof. destruct q as [w [x y z] f]. unfold_algebra. ring. Qed.

Lemma mul_dot_1 (p q : Quaternion) :
  Quat.DotProduct p p = 1 -> Quat.DotProduct q q = 1 ->
  Quat.DotProduct (Quat.mul p q) (Quat.mul p q) = 1.
Proof. intros Hp Hq. rewrite mul_dot, Hp, Hq. ring. Qed.

Lemma Norm_of_dot_1 (q : Quaternion) :
  Quat.DotProduct q q = 1 -> Quat.Norm q = 1.
Proof. intros H. unfold Quat.Norm. rewrite H. apply sqrt_1. Qed.

(** X18: between quaternions of norm 1, [SLERP] returns a quaternion of
    norm 1 for every [k], also outside [[0, 1]]. *)
Theorem SLERP_unit_norm (q1 q2 : Quaternion) (k : R) :
  Quat.Norm q1 = 1 -> Quat.Norm q2 = 1 ->
  Quat.Norm (Quat.SLERP q1 q2 k) = 1.
Proof.
  intros H1 H2.
  pose proof (Quat_norm_1_dot q1 H1) as D1.
  pose proof (Quat_norm_1_dot q2 H2) as D2.
  assert (Hc : Quat.DotProduct (Quat.Conj q1) (Quat.Conj q1) = 1)
    by (rewrite Conj_dot; exact D1).
  assert (Hn : Quat.DotProduct (Quat.neg q2) (Quat.neg q2) = 1)
    by (rewrite (proj2 (neg_dot q2 q2)); exact D2).
  apply Norm_of_dot_1. unfold Quat.SLERP. rewrite (Inv_unit q1 H1).
  destruct (Cmath.Rltb (Quat.DotProduct q1 q2) 0);
    (apply mul_dot_1; [exact D1 |]; apply pow_unit_dot, Norm_of_dot_1,
       mul_dot_1; assumption).
Qed.

(** X19: interpolating from a quaternion of norm 1 to itself returns it,
    for every [k]. *)
Theorem SLERP_same (q : Quaternion) (k : R) :
  Quat.Norm q = 1 -> Quat.eqb (Quat.SLERP q q k) q = true.
Proof.
  intros Hn. pose proof (Quat_norm_1_dot q Hn) as Hd.
  unfold Quat.SLERP. rewrite Rltb_false by lra.
  rewrite (Inv_unit q Hn).
  assert (Hone : Quat.mul (Quat.Conj q) q = mkQuaternion 1 Vec.zero false).
  { destruct q as [w [x y z] f]. unfold_algebra in Hd. unfold_algebra.
    f_equal; [lra | f_equal; ring]. }
  rewrite Hone, pow_zero_vector, Rabs_R1.
  replace (Rpower 1 k) with 1
    by (unfold Rpower; rewrite ln_1, Rmult_0_r, exp_0; reflexivity).
  rewrite mul_one_r. apply Quat_eqb_components; reflexivity.
Qed.

(** X20: for a non-zero axis, [QuaternionFromAngleAxis] returns a
    quaternion of norm 1 (with the flag unset), and the rotation by it
    leaves the axis in place. *)
Theorem QuaternionFromAngleAxis_unit (theta : R) (u : VectorCartesian) :
  Vec.Norm u <> 0 ->
  Quat.Norm (Quat.QuaternionFromAngleAxis theta u) = 1 /\
  m_isNormalized (Quat.QuaternionFromAngleAxis theta u) = false /\
  Quat.Rotation (Quat.QuaternionFromAngleAxis theta u) u = u.
Proof.
  intros Hu.
  pose proof (unit_direction_dot u Hu) as Hnn. cbv zeta in Hnn.
  pose proof (sin2_cos2 (theta / 2)) as Hsc. unfold Rsqr in Hsc.
  assert (Hscale : u = Vec.scale (Vec.Norm u) (Vec.div u (Vec.Norm u))).
  { destruct u as [a b c]. revert Hu. generalize (Vec.Norm
      {| GetX := a; GetY := b; GetZ := c |}).
    intros N HN. unfold_algebra. f_equal; field; exact HN. }
  unfold Quat.QuaternionFromAngleAxis.
  remember (Vec.div u (Vec.Norm u)) as n eqn:En.
  remember (Vec.Norm u) as N eqn:EN. clear En EN Hu.
  subst u. destruct n as [x y z].
  set (s := sin (theta / 2)) in *. set (c := cos (theta / 2)) in *.
  unfold_algebra in Hnn.
  assert (Hd : Quat.DotProduct
                 (Quat.Quaternion_wv c (Vec.scale s (mkVectorCartesian x y z)))
                 (Quat.Quaternion_wv c (Vec.scale s (mkVectorCartesian x y z)))
               = 1).
  { unfold_algebra.
    transitivity (c * c + s * s * (x * x + y * y + z * z)); [ring |].
    rewrite Hnn. lra. }
  pose proof (Norm_of_dot_1 _ Hd) as Hn1.
  split; [exact Hn1 | split; [reflexivity |]].
  rewrite Rotation_valid; [| rewrite Hn1; lra | discriminate].
  rewrite Hd. unfold_algebra.
  f_equal.
  - transitivity (N * x * (c * c + s * s * (x * x + y * y + z * z)));
      [field | rewrite Hnn; replace (c * c + s * s * 1) with 1 by lra; ring].
  - transitivity (N * y * (c * c + s * s * (x * x + y * y + z * z)));
      [field | rewrite Hnn; replace (c * c + s * s * 1) with 1 by lra; ring].
  - transitivity (N * z * (c * c + s * s * (x * x + y * y + z * z)));
      [field | rewrite Hnn; replace (c * c + s * s * 1) with 1 by lra; ring].
Qed.

Lemma velocity_of_equal (a b r : Quaternion) (s : R) :
  m_w a = m_w b -> m_v a = m_v b ->
  m_v (Quat.mul (Quat.scale (Quat.sub a b) s) r) = Vec.zero.
Proof.
  destruct a as [wa va fa], b as [wb vb fb]. cbn [m_w m_v].
  intros -> ->. destruct vb as [x y z], r as [w [rx ry rz] f].
  unfold_algebra. f_equal; ring.
Qed.

Lemma Rotation_components (p q : Quaternion) (v : VectorCartesian) :
  Quat.Norm p <> 0 -> (m_isNormalized p = true -> Quat.Norm p = 1) ->
  Quat.Norm q <> 0 -> (m_isNormalized q = true -> Quat.Norm q = 1) ->
  m_w p = m_w q -> m_v p = m_v q ->
  Quat.Rotation p v = Quat.Rotation q v.
Proof.
  intros Hp Hfp Hq Hfq Hw Hv.
  rewrite (Rotation_valid p v Hp Hfp), (Rotation_valid q v Hq Hfq).
  destruct p as [wp vp fp], q as [wq vq fq]. cbn [m_w m_v] in Hw, Hv.
  subst. reflexivity.
Qed.

Lemma Normalize_unit_components (q : Quaternion) :
  Quat.Norm q = 1 ->
  m_w (Quat.Normalize q) = m_w q /\ m_v (Quat.Normalize q) = m_v q /\
  Quat.Norm (Quat.Normalize q) = 1.
Proof.
  intros Hn. unfold Quat.Normalize.
  destruct (m_isNormalized q) eqn:Hf; cbn [negb]; [auto |].
  rewrite Hn. destruct q as [w [x y z] f].
  assert (Hd := Quat_norm_1_dot _ Hn).
  split; [| split].
  - unfold_algebra. field.
  - unfold_algebra. f_equal; field.
  - apply Norm_of_dot_1. unfold_algebra in Hd. unfold_algebra.
    transitivity (w * w + (x * x + y * y + z * z)); [field | exact Hd].
Qed.

(** X21: between a quaternion of norm 1 and its negation, which stand for
    the same orientation, the average angular velocity is the zero
    vector. *)
Theorem AverageAngularVelocity_neg (q : Quaternion) (deltaT : R) :
  Quat.Norm q = 1 -> 0 < deltaT ->
  Quat.AverageAngularVelocity q (Quat.neg q) deltaT = Vec.zero.
Proof.
  intros Hn _. pose proof (Quat_norm_1_dot q Hn) as Hd.
  destruct (neg_dot q q) as [N1 N2].
  unfold Quat.AverageAngularVelocity.
  rewrite Rltb_true by lra.
  set (q2 := Quat.neg (Quat.neg q)).
  assert (Hw2 : m_w q2 = m_w q) by (unfold q2; unfold_algebra; ring).
  assert (Hv2 : m_v q2 = m_v q).
  { unfold q2. destruct q as [w [x y z] f]. unfold_algebra. f_equal; ring. }
  assert (Hn2 : Quat.Norm q2 = 1).
  { apply Norm_of_dot_1. unfold Quat.DotProduct. rewrite Hw2, Hv2. exact Hd. }
  assert (Hpur : Quat.IsPur q2 = Quat.IsPur q).
  { unfold Quat.IsPur. rewrite Hw2. reflexivity. }
  rewrite Hpur. destruct (Quat.IsPur q); cbn [negb].
  - apply velocity_of_equal; assumption.
  - apply velocity_of_equal; [reflexivity |]. cbn [m_v Quat.Quaternion_v].
    destruct (Normalize_unit_components q Hn) as (Aw & Av & An).
    destruct (Normalize_unit_components q2 Hn2) as (Bw & Bv & Bn).
    assert (Hq2 : Quat.Rotation
                    (if negb (m_isNormalized q2) then Quat.Normalize q2
                     else q2) (mkVectorCartesian 1 0 0)
                  = Quat.Rotation q2 (mkVectorCartesian 1 0 0)).
    { destruct (m_isNormalized q2); cbn [negb]; [reflexivity |].
      apply Rotation_components; try (intros _; assumption);
        try lra; assumption. }
    assert (Hq1 : Quat.Rotation
                    (if negb (m_isNormalized q) then Quat.Normalize q
                     else q) (mkVectorCartesian 1 0 0)
                  = Quat.Rotation q (mkVectorCartesian 1 0 0)).
    { destruct (m_isNormalized q); cbn [negb]; [reflexivity |].
      apply Rotation_components; try (intros _; assumption);
        try lra; assumption. }
    rewrite Hq1, Hq2.
    apply Rotation_components; try (intros _; assumption); try lra;
      assumption.
Qed.

(** ** Exponential and logarithm *)

Lemma Quat_norm_pos_of_vector (q : Quaternion) :
  m_v q <> Vec.zero ->
  0 < Vec.Norm (m_v q) /\ Vec.Norm (m_v q) <= Quat.Norm q.
Proof.
  intros Hv.
  pose proof (Vec_norm_nonzero _ Hv) as Hn.
  pose proof (sqrt_pos (Vec.DotProduct (m_v q) (m_v q))) as Hp.
  split; [unfold Vec.Norm in *; lra |].
  unfold Vec.Norm, Quat.Norm, Quat.DotProduct. apply sqrt_le_1_alt.
  pose proof (Rle_0_sqr (m_w q)) as Hw. unfold Rsqr in Hw. lra.
Qed.

(** X30: for a quaternion with a non-zero vector part, [Exp] of [Log]
    gives back the scalar part and the vector part divided by the norm:
    the round trip is exact for quaternions of norm 1 only, since [Exp]
    leaves the scalar part out of the vector part. *)
Theorem Exp_Log (q : Quaternion) :
  m_v q <> Vec.zero ->
  Quat.Exp (Quat.Log q)
  = Quat.Quaternion_wv (m_w q) (Vec.div (m_v q) (Quat.Norm q)) /\
  (Quat.Norm q = 1 -> Quat.eqb (Quat.Exp (Quat.Log q)) q = true).
Proof.
  intros Hv.
  assert (Hmain : Quat.Exp (Quat.Log q)
                  = Quat.Quaternion_wv (m_w q)
                      (Vec.div (m_v q) (Quat.Norm q))).
  { pose proof (Vec_norm_nonzero _ Hv) as Hvn.
    destruct (Quat_norm_pos_of_vector q Hv) as [Hvp HvN].
    pose proof (Vec_norm_sqr (m_v q)) as Hvs.
    assert (HNs : Quat.Norm q * Quat.Norm q
                  = m_w q * m_w q + Vec.DotProduct (m_v q) (m_v q))
      by (apply sqrt_sqrt, Quat_dot_self_nonneg).
    set (N := Quat.Norm q) in *. set (V := Vec.Norm (m_v q)) in *.
    set (w := m_w q) in *.
    assert (HN : 0 < N) by lra.
    assert (Hws : (w / N) * (w / N) = 1 - (V / N) * (V / N))
      by (field_simplify_eq; [nra | lra]).
    assert (HVN : 0 < V / N) by (apply Rdiv_lt_0_compat; lra).
    assert (Hwr : -1 < w / N < 1) by nra.
    pose proof (acos_bound_lt _ Hwr) as Hth.
    assert (Hsin : sin (acos (w / N)) = V / N).
    { rewrite sin_acos by lra.
      apply sqrt_lem_1; [unfold Rsqr; nra | lra | unfold Rsqr; lra]. }
    assert (Hcos : cos (acos (w / N)) = w / N) by (apply cos_acos; lra).
    unfold Quat.Log. fold N V w.
    rewrite (Reqb_false V 0), (Reqb_false N 0) by lra. cbn [negb andb].
    remember (Vec.div (m_v q) V) as n eqn:En.
    assert (Hnn : Vec.Norm n = 1).
    { subst n. apply Vec_norm_div_self. exact Hvn. }
    unfold Quat.Exp, Quat.Quaternion_wv; cbn [m_w m_v].
    rewrite Vec_norm_scale_abs, Hnn, Rmult_1_r,
      (Rabs_pos_eq (acos (w / N))) by lra.
    rewrite (Reqb_false (acos (w / N)) 0) by lra. cbn [negb].
    rewrite Hsin, Hcos. unfold Cmath.log. rewrite exp_ln by exact HN.
    subst n. set (th := acos (w / N)) in *.
    destruct (m_v q) as [a b c]. unfold_algebra.
    f_equal; [field; lra | f_equal; field; lra]. }
  split; [exact Hmain |].
  intros Hn. rewrite Hmain, Hn. apply Quat_eqb_components.
  - reflexivity.
  - cbn [m_v Quat.Quaternion_wv]. destruct (m_v q) as [a b c].
    unfold_algebra. f_equal; field.
Qed.

(** The free operators take a quaternion apart and put it together. *)
Lemma vec_add_scalar_parts (q : Quaternion) :
  Quat.eqb (QuatOps.vec_add_scalar (Quat.GetV q) (Quat.GetW q)) q = true /\
  QuatOps.scalar_mul 1 q = mkQuaternion (m_w q) (m_v q) false.
Proof.
  destruct q as [w [x y z] f]. split.
  - apply Quat_eqb_components; unfold QuatOps.vec_add_scalar; unfold_algebra;
      [ring | f_equal; ring].
  - unfold QuatOps.scalar_mul. unfold_algebra. f_equal; [ring | f_equal; ring].
Qed.

(** * Further properties of the viewport tile resolver *)

(** ** The sample grid *)

Lemma INR_SAMPLERES : INR AdaptionUnit.SAMPLERES = 8.
Proof. unfold AdaptionUnit.SAMPLERES. rewrite INR_IZR_INZ. reflexivity. Qed.

Lemma fill_samples_In (p : AdaptionUnit.NormalizedCoordinate) :
  In p AdaptionUnit.fill_samples ->
  exists i j, (i <= 8)%nat /\ (j <= 8)%nat /\
    p = AdaptionUnit.mkNormalizedCoordinate
          (INR i * (1.0 / INR AdaptionUnit.SAMPLERES))
          (INR j * (1.0 / INR AdaptionUnit.SAMPLERES)).
Proof.
  unfold AdaptionUnit.fill_samples. rewrite List.in_flat_map.
  intros [i [Hi Hp]]. apply List.in_map_iff in Hp. destruct Hp as [j [<- Hj]].
  apply List.in_seq in Hi, Hj. unfold AdaptionUnit.SAMPLERES in Hi, Hj.
  exists i, j. repeat split; lia.
Qed.

Lemma grid_value_range (i : nat) :
  (i <= 8)%nat -> 0 <= INR i * (1.0 / INR AdaptionUnit.SAMPLERES) <= 1.
Proof.
  intros Hi. rewrite INR_SAMPLERES.
  pose proof (pos_INR i) as H0. apply le_INR in Hi.
  replace (INR 8) with 8 in Hi by (rewrite INR_IZR_INZ; reflexivity).
  lra.
Qed.

(** X22: the constructor fills a grid of 81 samples; entry [i * 9 + j] is
    the point [(i / 8, j / 8)] for [i, j <= 8], and every sample lies in
    the unit square. *)
Theorem samplePoints_grid (sets : list DASH.SRD)
    (au : AdaptionUnit.AdaptionUnit) :
  AdaptionUnit.new sets = Some au ->
  length (AdaptionUnit.samplePoints au) = 81%nat /\
  (forall i j, (i <= 8)%nat -> (j <= 8)%nat ->
     AdaptionUnit.samplePoints au !! (i * 9 + j)%nat
     = Some (AdaptionUnit.mkNormalizedCoordinate (INR i / 8) (INR j / 8))) /\
  (forall p, In p (AdaptionUnit.samplePoints au) ->
     0 <= AdaptionUnit.x p <= 1 /\ 0 <= AdaptionUnit.y p <= 1).
Proof.
  intros Hnew. split; [apply (new_samplePoints sets au Hnew) |].
  unfold AdaptionUnit.new in Hnew. destruct sets as [| srd rest];
    [discriminate |]. injection Hnew as <-. cbn [AdaptionUnit.samplePoints].
  split.
  - intros i j Hi Hj.
    assert (Hgrid : AdaptionUnit.fill_samples !! (i * 9 + j)%nat
                    = Some (AdaptionUnit.mkNormalizedCoordinate
                              (INR i * (1.0 / INR AdaptionUnit.SAMPLERES))
                              (INR j * (1.0 / INR AdaptionUnit.SAMPLERES)))).
    { do 9 (destruct i as [| i];
            [do 9 (destruct j as [| j]; [reflexivity |]); lia |]).
      lia. }
    rewrite Hgrid, INR_SAMPLERES. do 2 f_equal; lra.
  - intros p Hp. apply fill_samples_In in Hp.
    destruct Hp as (i & j & Hi & Hj & ->). cbn [AdaptionUnit.x AdaptionUnit.y].
    split; apply grid_value_range; assumption.
Qed.

(** ** The tile index of a built resolver *)

Lemma fill_mapping_app (fw fh : Z) (a b : list DASH.SRD) (i : Z)
    (m : list (R * list (R * Z))) :
  AdaptionUnit.fill_mapping fw fh (a ++ b) i m
  = AdaptionUnit.fill_mapping fw fh b (i + Z.of_nat (length a))
      (AdaptionUnit.fill_mapping fw fh a i m).
Proof.
  revert i m. induction a as [| srd a IH]; intros i m.
  - cbn. f_equal. lia.
  - cbn [app AdaptionUnit.fill_mapping length]. rewrite IH. f_equal. lia.
Qed.

Lemma tiles_below_weaken (n n' : Z) (m : list (R * list (R * Z))) :
  (n <= n')%Z -> tiles_below n m -> tiles_below n' m.
Proof.
  intros Hn. unfold tiles_below. apply List.Forall_impl. intros e.
  apply List.Forall_impl. intros e'. lia.
Qed.

Lemma fill_mapping_tiles (fw fh : Z) (sets : list DASH.SRD) (i : Z)
    (m : list (R * list (R * Z))) :
  (0 <= i)%Z -> tiles_below i m ->
  tiles_below (i + Z.of_nat (length sets))
    (AdaptionUnit.fill_mapping fw fh sets i m).
Proof.
  revert i m. induction sets as [| srd rest IH]; intros i m Hi Hm.
  - cbn. eapply tiles_below_weaken; [| exact Hm]. lia.
  - cbn [AdaptionUnit.fill_mapping length].
    replace (i + Z.of_nat (S (length rest)))%Z
      with ((i + 1) + Z.of_nat (length rest))%Z by lia.
    apply IH; [lia |].
    apply (tiles_below_weaken i (i + 1)) in Hm; [| lia].
    unfold tiles_below, AdaptionUnit.assign_tile.
    apply (update_values
             (fun col => Forall (fun e' => (0 <= snd e' < i + 1)%Z) col)).
    + cbn [default from_option]. apply List.Forall_cons; [cbn; lia |].
      apply List.Forall_nil.
    + intros col Hcol. cbn [default from_option]. unfold Datatypes.id.
      apply (update_values (fun t => (0 <= t < i + 1)%Z));
        [lia | intros; lia | exact Hcol].
    + exact Hm.
Qed.

Lemma mapCoordToTile_entries (au : AdaptionUnit.AdaptionUnit)
    (c : AdaptionUnit.NormalizedCoordinate) (t : Z) :
  AdaptionUnit.mapCoordToTile au c = Some t <->
  exists kx col ky,
    StdMap.lower_bound (AdaptionUnit.x c)
      (AdaptionUnit.normalizedCoordTileMapping au) = Some (kx, col) /\
    StdMap.lower_bound (AdaptionUnit.y c) col = Some (ky, t).
Proof.
  unfold AdaptionUnit.mapCoordToTile. split.
  - destruct (StdMap.lower_bound (AdaptionUnit.x c) _) as [[kx col] |];
      [| discriminate].
    destruct (StdMap.lower_bound (AdaptionUnit.y c) col) as [[ky t'] |] eqn:E;
      [| discriminate].
    intros [= ->]. eauto.
  - intros (kx & col & ky & -> & ->). reflexivity.
Qed.

Lemma new_index (sets : list DASH.SRD) (au : AdaptionUnit.AdaptionUnit) :
  AdaptionUnit.new sets = Some au ->
  let m := AdaptionUnit.normalizedCoordTileMapping au in
  StdMap.ascending m /\ Forall (fun e => StdMap.ascending (snd e)) m /\
  tiles_below (Z.of_nat (length sets)) m.
Proof.
  unfold AdaptionUnit.new. destruct sets as [| srd rest]; [discriminate |].
  intros [= <-]. cbn [AdaptionUnit.normalizedCoordTileMapping]. cbv zeta.
  assert (Hempty : StdMap.ascending ([] : list (R * list (R * Z))) /\
                   Forall (fun e : R * list (R * Z) =>
                             StdMap.ascending (snd e)) []).
  { split; [apply SSorted_nil | apply List.Forall_nil]. }
  destruct (fill_mapping_ascending (DASH.w srd * DASH.th srd)
              (DASH.h srd * DASH.tv srd) (srd :: rest) 0 [] Hempty)
    as [Ha Hc].
  split; [exact Ha | split; [exact Hc |]].
  apply (fill_mapping_tiles _ _ (srd :: rest) 0 []); [lia |].
  apply List.Forall_nil.
Qed.

(** X23: in a resolver built from a layout, a coordinate resolves to the
    tile stored under the least X boundary that is not below its x and,
    in that column, under the least Y boundary that is not below its y;
    the tile is an index of the layout. *)
Theorem mapCoordToTile_least (sets : list DASH.SRD)
    (au : AdaptionUnit.AdaptionUnit)
    (c : AdaptionUnit.NormalizedCoordinate) (t : Z) :
  AdaptionUnit.new sets = Some au ->
  AdaptionUnit.mapCoordToTile au c = Some t ->
  (0 <= t < Z.of_nat (length sets))%Z /\
  exists kx col ky,
    In (kx, col) (AdaptionUnit.normalizedCoordTileMapping au) /\
    AdaptionUnit.x c <= kx /\
    (forall e, In e (AdaptionUnit.normalizedCoordTileMapping au) ->
               AdaptionUnit.x c <= fst e -> kx <= fst e) /\
    In (ky, t) col /\
    AdaptionUnit.y c <= ky /\
    (forall e, In e col -> AdaptionUnit.y c <= fst e -> ky <= fst e).
Proof.
  intros Hnew Hmap.
  destruct (new_index sets au Hnew) as (Hasc & Hcols & Htiles).
  apply mapCoordToTile_entries in Hmap.
  destruct Hmap as (kx & col & ky & Hx & Hy).
  destruct (lower_bound_least _ _ _ Hasc Hx) as (Hin & Hkx & Hleast).
  rewrite List.Forall_forall in Hcols. pose proof (Hcols _ Hin) as Hcol.
  cbn [snd] in Hcol.
  destruct (lower_bound_least _ _ _ Hcol Hy) as (Hin' & Hky & Hleast').
  split.
  - unfold tiles_below in Htiles. rewrite List.Forall_forall in Htiles.
    pose proof (Htiles _ Hin) as Ht. cbn [snd] in Ht.
    rewrite List.Forall_forall in Ht. apply (Ht _ Hin').
  - exists kx, col, ky. cbn [fst] in *. repeat split; assumption.
Qed.

Lemma lower_bound_none {V : Type} (k : R) (m : list (R * V)) :
  StdMap.lower_bound k m = None <-> Forall (fun e => fst e < k) m.
Proof.
  unfold StdMap.lower_bound. split.
  - intros Hf. apply List.Forall_forall. intros e He.
    pose proof (List.find_none _ _ Hf e He) as Hn. cbn in Hn.
    unfold Cmath.Rltb in Hn. destruct (Rlt_dec (fst e) k); [assumption |].
    discriminate.
  - intros Hall. induction m as [| e m IH]; [reflexivity |].
    cbn [List.find]. rewrite Rltb_true by (apply (List.Forall_inv Hall)).
    cbn [negb]. apply IH. apply (List.Forall_inv_tail Hall).
Qed.

(** X24: a coordinate has no tile exactly when its x lies above every
    recorded X boundary, or when its y lies above every Y boundary of the
    column that its x selects, whatever the other columns hold. *)
Theorem mapCoordToTile_none (au : AdaptionUnit.AdaptionUnit)
    (c : AdaptionUnit.NormalizedCoordinate) :
  AdaptionUnit.mapCoordToTile au c = None <->
  Forall (fun e => fst e < AdaptionUnit.x c)
    (AdaptionUnit.normalizedCoordTileMapping au) \/
  exists kx col,
    StdMap.lower_bound (AdaptionUnit.x c)
      (AdaptionUnit.normalizedCoordTileMapping au) = Some (kx, col) /\
    Forall (fun e => fst e < AdaptionUnit.y c) col.
Proof.
  unfold AdaptionUnit.mapCoordToTile.
  destruct (StdMap.lower_bound (AdaptionUnit.x c) _) as [[kx col] |] eqn:Ex.
  - destruct (StdMap.lower_bound (AdaptionUnit.y c) col) as [[ky t] |] eqn:Ey.
    + split; [discriminate |]. intros [Hall | (kx' & col' & [= <- <-] & Hall)].
      * apply lower_bound_none in Hall. congruence.
      * apply lower_bound_none in Hall. congruence.
    + split; [| reflexivity]. intros _. right. exists kx, col.
      split; [reflexivity | apply lower_bound_none; exact Ey].
  - split; [| reflexivity]. intros _. left. apply lower_bound_none. exact Ex.
Qed.

Lemma update_lower_bound {V : Type} (k : R) (f : option V -> V)
    (m : list (R * V)) :
  StdMap.ascending m ->
  exists o, StdMap.lower_bound k (StdMap.update k f m) = Some (k, f o) /\
            forall v, o = Some v -> In (k, v) m.
Proof.
  unfold StdMap.ascending, StdMap.lower_bound.
  induction m as [| [k' v'] m IH]; intros Hs.
  - exists None. cbn. rewrite Rltb_false by lra. cbn. split; [reflexivity |].
    discriminate.
  - apply StronglySorted_inv in Hs. destruct Hs as [Hs Hall].
    cbn [StdMap.update].
    destruct (Rlt_dec k k') as [Hlt | Hge].
    + rewrite (Rltb_true k k') by exact Hlt.
      exists None. cbn [List.find fst]. rewrite (Rltb_false k k) by lra.
      cbn. split; [reflexivity | discriminate].
    + rewrite (Rltb_false k k') by lra.
      destruct (Rlt_dec k' k) as [Hgt | Hle].
      * rewrite (Rltb_true k' k) by exact Hgt.
        destruct (IH Hs) as (o & Ho & Hin). exists o.
        cbn [List.find fst]. rewrite (Rltb_true k' k) by exact Hgt.
        cbn [negb].
        split; [exact Ho |]. intros v Hv. right. apply Hin. exact Hv.
      * rewrite (Rltb_false k' k) by lra.
        assert (k = k') by lra. subst k'. exists (Some v').
        cbn [List.find fst]. rewrite (Rltb_false k k) by lra. cbn [negb].
        split; [reflexivity |]. intros v [= <-]. left. reflexivity.
Qed.

Lemma assign_tile_lookup (m : list (R * list (R * Z))) (X Y : R) (i : Z) :
  StdMap.ascending m -> Forall (fun e => StdMap.ascending (snd e)) m ->
  AdaptionUnit.mapCoordToTile
    (AdaptionUnit.mkAdaptionUnit (AdaptionUnit.assign_tile m X Y i)
       AdaptionUnit.fill_samples)
    (AdaptionUnit.mkNormalizedCoordinate X Y) = Some i.
Proof.
  intros Hm Hcols. unfold AdaptionUnit.mapCoordToTile, AdaptionUnit.assign_tile.
  cbn [AdaptionUnit.normalizedCoordTileMapping AdaptionUnit.x AdaptionUnit.y].
  destruct (update_lower_bound X
              (fun col => StdMap.update Y (fun _ : option Z => i)
                            (default [] col)) m Hm) as (o & -> & Hin).
  assert (Hcol : StdMap.ascending (default [] o)).
  { destruct o as [col |]; cbn [default from_option]; unfold Datatypes.id.
    - rewrite List.Forall_forall in Hcols. apply (Hcols _ (Hin _ eq_refl)).
    - apply SSorted_nil. }
  destruct (update_lower_bound Y (fun _ : option Z => i) _ Hcol)
    as (o' & -> & _).
  reflexivity.
Qed.

Lemma new_value (sets : list DASH.SRD) (d : DASH.SRD)
    (au : AdaptionUnit.AdaptionUnit) :
  AdaptionUnit.new sets = Some au ->
  au = AdaptionUnit.mkAdaptionUnit
         (AdaptionUnit.fill_mapping
            (DASH.w (List.hd d sets) * DASH.th (List.hd d sets))
            (DASH.h (List.hd d sets) * DASH.tv (List.hd d sets)) sets 0 [])
         AdaptionUnit.fill_samples.
Proof.
  unfold AdaptionUnit.new. destruct sets as [| first rest]; [discriminate |].
  intros [= <-]. reflexivity.
Qed.

(** X25: the tile declared last in a layout is found at the corner that the
    constructor records for it; a tile declared earlier with the same
    corner is replaced. *)
Theorem last_tile_at_corner (pre : list DASH.SRD) (srd : DASH.SRD)
    (au : AdaptionUnit.AdaptionUnit) :
  AdaptionUnit.new (pre ++ [srd]) = Some au ->
  AdaptionUnit.mapCoordToTile au (recorded_corner (pre ++ [srd]) srd)
  = Some (Z.of_nat (length pre)).
Proof.
  intros Hnew. rewrite (new_value _ srd au Hnew).
  unfold recorded_corner. cbv zeta.
  set (first := List.hd srd (pre ++ [srd])).
  rewrite fill_mapping_app. cbn [AdaptionUnit.fill_mapping].
  assert (Hempty : StdMap.ascending ([] : list (R * list (R * Z))) /\
                   Forall (fun e : R * list (R * Z) =>
                             StdMap.ascending (snd e)) []).
  { split; [apply SSorted_nil | apply List.Forall_nil]. }
  destruct (fill_mapping_ascending (DASH.w first * DASH.th first)
              (DASH.h first * DASH.tv first) pre 0 [] Hempty) as [Ha Hc].
  cbv zeta in Ha, Hc.
  rewrite (assign_tile_lookup _ _ _ _ Ha Hc). reflexivity.
Qed.

(** ** The histogram of a built resolver *)



Section HistogramSpec.

Context {S : VectorSpherical}.
Variable au : AdaptionUnit.AdaptionUnit.
Variable q : Quaternion.

Lemma visibility_loop_samples (n j : nat) (h h' : gmap Z Z) :
  AdaptionUnit.visibility_loop au q n j h = Some h' ->
  forall i, (j <= i < j + n)%nat ->
    exists p t,
      AdaptionUnit.samplePoints au !! i = Some p /\
      AdaptionUnit.mapCoordToTile au
        (AdaptionUnit.fromViewportCoordToEquirectCoord q p) = Some t.
Proof.
  revert j h. induction n as [| n IH]; intros j h Hrun i Hi; [lia |].
  cbn [AdaptionUnit.visibility_loop] in Hrun.
  destruct (AdaptionUnit.samplePoints au !! j) as [p |] eqn:Ep;
    [| discriminate].
  destruct (AdaptionUnit.mapCoordToTile au
              (AdaptionUnit.fromViewportCoordToEquirectCoord q p))
    as [t |] eqn:Et; [| discriminate].
  destruct (Nat.eq_dec i j) as [-> | Hne].
  - exists p, t. split; assumption.
  - apply (IH _ _ Hrun). lia.
Qed.

Lemma visibility_loop_runs_on (n j : nat) (h : gmap Z Z) :
  (forall i, (j <= i < j + n)%nat ->
     exists p t,
       AdaptionUnit.samplePoints au !! i = Some p /\
       AdaptionUnit.mapCoordToTile au
         (AdaptionUnit.fromViewportCoordToEquirectCoord q p) = Some t) ->
  exists h', AdaptionUnit.visibility_loop au q n j h = Some h'.
Proof.
  revert j h. induction n as [| n IH]; intros j h Hres; cbn; [eauto |].
  destruct (Hres j) as (p & t & -> & ->); [lia |].
  apply IH. intros i Hi. apply Hres. lia.
Qed.

Lemma visibility_loop_counts (n j : nat) (h h' : gmap Z Z) (tile : Z) :
  AdaptionUnit.visibility_loop au q n j h = Some h' ->
  default 0%Z (h' !! tile)
  = (default 0%Z (h !! tile)
     + Z.of_nat (landing au q tile
                   (take n (drop j (AdaptionUnit.samplePoints au)))))%Z.
Proof.
  revert j h. induction n as [| n IH]; intros j h Hrun.
  - cbn in Hrun. injection Hrun as <-. rewrite take_0. unfold landing.
    cbn [List.filter length]. lia.
  - cbn [AdaptionUnit.visibility_loop] in Hrun.
    destruct (AdaptionUnit.samplePoints au !! j) as [p |] eqn:Ep;
      [| discriminate].
    destruct (AdaptionUnit.mapCoordToTile au
                (AdaptionUnit.fromViewportCoordToEquirectCoord q p))
      as [t |] eqn:Et; [| discriminate].
    rewrite (IH _ _ Hrun).
    rewrite (drop_S _ _ _ Ep). cbn [take]. unfold landing.
    cbn [List.filter]. rewrite Et. unfold AdaptionUnit.increment.
    destruct (decide (t = tile)) as [-> | Hne].
    + rewrite bool_decide_eq_true_2 by reflexivity.
      rewrite lookup_insert_eq. cbn [default from_option length].
      unfold Datatypes.id. lia.
    + rewrite bool_decide_eq_false_2 by congruence.
      rewrite lookup_insert_ne by exact Hne. lia.
Qed.

End HistogramSpec.

(** X27: a built resolver returns a histogram exactly when every sample of
    the grid resolves to a tile; one sample without a tile leaves the whole
    query without a result. *)
Theorem computeTileVisibility_defined (S : VectorSpherical)
    (sets : list DASH.SRD) (au : AdaptionUnit.AdaptionUnit)
    (q : Quaternion) :
  AdaptionUnit.new sets = Some au ->
  ((exists h, AdaptionUnit.computeTileVisibility au q = Some h) <->
   forall p, In p (AdaptionUnit.samplePoints au) ->
     exists t, AdaptionUnit.mapCoordToTile au
                 (AdaptionUnit.fromViewportCoordToEquirectCoord q p)
               = Some t).
Proof.
  intros Hnew. pose proof (new_samplePoints sets au Hnew) as Hlen.
  unfold AdaptionUnit.computeTileVisibility. split.
  - intros [h Hh] p Hp. apply list_elem_of_In in Hp.
    apply list_elem_of_lookup in Hp. destruct Hp as [i Hi].
    pose proof (lookup_lt_Some _ _ _ Hi) as Hlt.
    destruct (visibility_loop_samples au q _ _ _ _ Hh i) as (p' & t & Hp' & Ht).
    { unfold AdaptionUnit.SAMPLEPOINTS, AdaptionUnit.SAMPLERES. cbn. lia. }
    rewrite Hi in Hp'. injection Hp' as <-. eauto.
  - intros Hall. apply visibility_loop_runs_on. intros i Hi.
    destruct (lookup_lt_is_Some_2 (AdaptionUnit.samplePoints au) i)
      as [p Hp].
    { unfold AdaptionUnit.SAMPLEPOINTS, AdaptionUnit.SAMPLERES in Hi.
      cbn in Hi. lia. }
    destruct (Hall p) as [t Ht].
    { apply list_elem_of_In, list_elem_of_lookup. eauto. }
    eauto.
Qed.

(** X28: in the histogram of a built resolver the count of a tile is the
    number of samples of the grid that the rotation sends to that tile
    (0 for a tile without an entry), and every key is an index of the
    layout. *)
Theorem computeTileVisibility_landing (S : VectorSpherical)
    (sets : list DASH.SRD) (au : AdaptionUnit.AdaptionUnit)
    (q : Quaternion) (h : gmap Z Z) :
  AdaptionUnit.new sets = Some au ->
  AdaptionUnit.computeTileVisibility au q = Some h ->
  (forall tile,
     default 0%Z (h !! tile)
     = Z.of_nat (landing au q tile (AdaptionUnit.samplePoints au))) /\
  (forall tile count,
     h !! tile = Some count -> (0 <= tile < Z.of_nat (length sets))%Z).
Proof.
  intros Hnew Hh. pose proof (new_samplePoints sets au Hnew) as Hlen.
  unfold AdaptionUnit.computeTileVisibility in Hh.
  assert (Hcount : forall tile,
             default 0%Z (h !! tile)
             = Z.of_nat (landing au q tile (AdaptionUnit.samplePoints au))).
  { intros tile.
    rewrite (visibility_loop_counts au q _ _ _ _ tile Hh).
    rewrite lookup_empty. cbn [default from_option].
    replace (take AdaptionUnit.SAMPLEPOINTS
               (drop 0 (AdaptionUnit.samplePoints au)))
      with (AdaptionUnit.samplePoints au); [lia |].
    rewrite drop_0. symmetry. apply take_ge.
    unfold AdaptionUnit.SAMPLEPOINTS, AdaptionUnit.SAMPLERES.
    rewrite Hlen. cbn. lia. }
  split; [exact Hcount |].
  intros tile count Htile.
  destruct (visibility_loop_returns au q _ _ _ _ Hh) as (_ & _ & Hpos).
  assert (Hc : (1 <= count)%Z).
  { apply (Hpos ltac:(intros k c Hk; rewrite lookup_empty in Hk;
                      discriminate) tile count Htile). }
  specialize (Hcount tile). rewrite Htile in Hcount.
  cbn [default from_option] in Hcount. unfold Datatypes.id in Hcount.
  unfold landing in Hcount.
  destruct (List.filter _ (AdaptionUnit.samplePoints au)) as [| p l] eqn:Ef;
    [cbn in Hcount; lia |].
  assert (Hin : In p (List.filter
             (fun p => bool_decide
                (AdaptionUnit.mapCoordToTile au
                   (AdaptionUnit.fromViewportCoordToEquirectCoord q p)
                 = Some tile)) (AdaptionUnit.samplePoints au))).
  { rewrite Ef. left. reflexivity. }
  apply List.filter_In in Hin. destruct Hin as [_ Hb].
  apply bool_decide_eq_true_1 in Hb.
  (* the tile of a sample is an index of the layout *)
  destruct (new_index sets au Hnew) as (Hasc & Hcols & Htiles).
  apply mapCoordToTile_entries in Hb.
  destruct Hb as (kx & col & ky & Hx & Hy).
  destruct (lower_bound_least _ _ _ Hasc Hx) as (Hinx & _ & _).
  rewrite List.Forall_forall in Hcols. pose proof (Hcols _ Hinx) as Hcol.
  destruct (lower_bound_least _ _ _ Hcol Hy) as (Hiny & _ & _).
  unfold tiles_below in Htiles. rewrite List.Forall_forall in Htiles.
  pose proof (Htiles _ Hinx) as Ht. cbn [snd] in Ht.
  rewrite List.Forall_forall in Ht. apply (Ht _ Hiny).
Qed.

Lemma one_tile_index (srd : DASH.SRD) (au : AdaptionUnit.AdaptionUnit) :
  AdaptionUnit.new [srd] = Some au ->
  AdaptionUnit.normalizedCoordTileMapping au
  = [(AdaptionUnit.x (recorded_corner [srd] srd),
      [(AdaptionUnit.y (recorded_corner [srd] srd), 0%Z)])].
Proof. intros [= <-]. reflexivity. Qed.

(** X29: a layout of one tile whose recorded corner reaches 1.0 in both
    axes gives the histogram [{0: 81}] for every head rotation, when the
    spherical view gives a theta of at least [-PI] and a phi of at most
    [PI]. *)
Theorem one_tile_histogram (S : VectorSpherical) (srd : DASH.SRD)
    (au : AdaptionUnit.AdaptionUnit) (q : Quaternion) :
  (forall v, - PI <= GetTheta v) -> (forall v, GetPhi v <= PI) ->
  AdaptionUnit.new [srd] = Some au ->
  1 <= AdaptionUnit.x (recorded_corner [srd] srd) ->
  1 <= AdaptionUnit.y (recorded_corner [srd] srd) ->
  AdaptionUnit.computeTileVisibility au q = Some {[ 0%Z := 81%Z ]}.
Proof.
  intros Htheta Hphi Hnew HX HY.
  pose proof (one_tile_index srd au Hnew) as Hidx.
  pose proof (new_samplePoints [srd] au Hnew) as Hlen.
  assert (Hres : forall p,
             AdaptionUnit.mapCoordToTile au
               (AdaptionUnit.fromViewportCoordToEquirectCoord q p)
             = Some 0%Z).
  { intros p.
    destruct (equirect_in_range Htheta Hphi q p) as [Hx Hy].
    unfold AdaptionUnit.mapCoordToTile. rewrite Hidx.
    unfold StdMap.lower_bound. cbn [List.find fst].
    rewrite Rltb_false by lra. cbn [negb List.find fst].
    rewrite Rltb_false by lra. reflexivity. }
  unfold AdaptionUnit.computeTileVisibility.
  assert (Hloop : forall n j h,
             (j + n <= 81)%nat ->
             AdaptionUnit.visibility_loop au q n j h
             = Some (Nat.iter n (fun m => AdaptionUnit.increment m 0%Z) h)).
  { induction n as [| n IH]; intros j h Hj; [reflexivity |].
    cbn [AdaptionUnit.visibility_loop].
    destruct (lookup_lt_is_Some_2 (AdaptionUnit.samplePoints au) j)
      as [p ->]; [lia |].
    rewrite Hres, IH by lia. rewrite Nat.iter_succ_r. reflexivity. }
  rewrite Hloop by (cbn; lia). reflexivity.
Qed.

(** ** The further properties at concrete inputs *)

Lemma flag_unset_valid (q : Quaternion) :
  m_isNormalized q = false -> m_isNormalized q = true -> Quat.Norm q = 1.
Proof. intros H1 H2. congruence. Qed.

Lemma two_flag_valid :
  m_isNormalized (Quat.Quaternion_wxyz 2 0 0 0) = true ->
  Quat.Norm (Quat.Quaternion_wxyz 2 0 0 0) = 1.
Proof. apply flag_unset_valid. reflexivity. Qed.

Lemma unit_valid (q : Quaternion) :
  Quat.Norm q = 1 ->
  Quat.Norm q <> 0 /\ (m_isNormalized q = true -> Quat.Norm q = 1).
Proof. intros H. split; [rewrite H; lra | intros _; exact H]. Qed.

Lemma x_axis_nonzero : mkVectorCartesian 1 0 0 <> Vec.zero.
Proof. intros H. apply (f_equal GetX) in H. cbn in H. lra. Qed.

Lemma z_axis_norm : Vec.Norm (mkVectorCartesian 0 0 2) <> 0.
Proof.
  apply Vec_norm_nonzero. intros H. apply (f_equal GetZ) in H. cbn in H. lra.
Qed.

(** X4 at the quaternion 2, of norm 2 and with the flag unset. *)
Lemma mul_Inv_witness :
  let q := Quat.Quaternion_wxyz 2 0 0 0 in
  (Quat.Norm q <> 0 /\ (m_isNormalized q = true -> Quat.Norm q = 1)) /\
  Quat.mul q (Quat.Inv q) = Quat.Quaternion_w 1 /\
  Quat.mul (Quat.Inv q) q = Quat.Quaternion_w 1.
Proof.
  cbv zeta. split.
  - exact (conj Norm_wxyz_2 two_flag_valid).
  - exact (mul_Inv _ Norm_wxyz_2 two_flag_valid).
Defined.

(** X5 at the quaternion 2 and a quaternion of [FromEuler]. *)
Lemma Rotation_mul_witness :
  let p := Quat.Quaternion_wxyz 2 0 0 0 in
  let q := Quat.FromEuler 1 (1 / 2) (-1) in
  let v := mkVectorCartesian 1 2 3 in
  ((Quat.Norm p <> 0 /\ (m_isNormalized p = true -> Quat.Norm p = 1)) /\
   (Quat.Norm q <> 0 /\ (m_isNormalized q = true -> Quat.Norm q = 1))) /\
  Quat.Rotation (Quat.mul p q) v = Quat.Rotation p (Quat.Rotation q v).
Proof.
  cbv zeta.
  pose proof (unit_valid _ (FromEuler_norm 1 (1 / 2) (-1))) as [Hq Hfq].
  split.
  - exact (conj (conj Norm_wxyz_2 two_flag_valid)
                (conj Hq Hfq)).
  - exact (Rotation_mul _ _ _ Norm_wxyz_2 two_flag_valid
             Hq Hfq).
Defined.

(** X6 at the quaternion 2. *)
Lemma Rotation_neg_witness :
  let q := Quat.Quaternion_wxyz 2 0 0 0 in
  let v := mkVectorCartesian 1 2 3 in
  (Quat.Norm q <> 0 /\ (m_isNormalized q = true -> Quat.Norm q = 1)) /\
  Quat.Rotation (Quat.neg q) v = Quat.Rotation q v.
Proof.
  cbv zeta. split.
  - exact (conj Norm_wxyz_2 two_flag_valid).
  - exact (Rotation_neg _ _ Norm_wxyz_2 two_flag_valid).
Defined.

(** X7 at the quaternion 2. *)
Lemma Rotation_preserves_dot_witness :
  let q := Quat.Quaternion_wxyz 2 0 0 0 in
  let a := mkVectorCartesian 1 2 3 in
  let b := mkVectorCartesian 0 1 0 in
  (Quat.Norm q <> 0 /\ (m_isNormalized q = true -> Quat.Norm q = 1)) /\
  Vec.DotProduct (Quat.Rotation q a) (Quat.Rotation q b)
  = Vec.DotProduct a b /\
  Vec.Norm (Quat.Rotation q a) = Vec.Norm a.
Proof.
  cbv zeta. split.
  - exact (conj Norm_wxyz_2 two_flag_valid).
  - exact (Rotation_preserves_dot _ _ _ Norm_wxyz_2
             two_flag_valid).
Defined.

(** X8 at a quaternion of [FromEuler]. *)
Lemma OrthodromicDistance_self_witness :
  let q := Quat.FromEuler 1 (1 / 2) (-1) in
  (Quat.Norm q <> 0 /\ (m_isNormalized q = true -> Quat.Norm q = 1)) /\
  Quat.OrthodromicDistance q q = 0.
Proof.
  cbv zeta.
  pose proof (unit_valid _ (FromEuler_norm 1 (1 / 2) (-1))) as [Hq Hfq].
  split; [exact (conj Hq Hfq) |].
  exact (OrthodromicDistance_self _ Hq Hfq).
Defined.

(** X9 at the quaternion 2 and a quaternion of [FromEuler]. *)
Lemma OrthodromicDistance_symmetric_witness :
  let q1 := Quat.Quaternion_wxyz 2 0 0 0 in
  let q2 := Quat.FromEuler 1 (1 / 2) (-1) in
  ((Quat.Norm q1 <> 0 /\ (m_isNormalized q1 = true -> Quat.Norm q1 = 1)) /\
   (Quat.Norm q2 <> 0 /\ (m_isNormalized q2 = true -> Quat.Norm q2 = 1))) /\
  Quat.OrthodromicDistance q1 q2 = Quat.OrthodromicDistance q2 q1 /\
  0 <= Quat.OrthodromicDistance q1 q2 <= PI.
Proof.
  cbv zeta.
  pose proof (unit_valid _ (FromEuler_norm 1 (1 / 2) (-1))) as [Hq Hfq].
  split.
  - exact (conj (conj Norm_wxyz_2 two_flag_valid) (conj Hq Hfq)).
  - exact (OrthodromicDistance_symmetric _ _ Norm_wxyz_2 two_flag_valid
             Hq Hfq).
Defined.

(** X11 at the quaternion 2. *)
Lemma Normalize_unit_witness :
  let q := Quat.Quaternion_wxyz 2 0 0 0 in
  (Quat.Norm q <> 0 /\ m_isNormalized q = false) /\
  Quat.Norm (Quat.Normalize q) = 1 /\
  m_isNormalized (Quat.Normalize q) = true /\
  Quat.eqb (Quat.scale (Quat.Normalize q) (Quat.Norm q)) q = true /\
  Quat.eqb (Quat.Normalized q) (Quat.Normalize q) = true /\
  m_isNormalized (Quat.Normalized q) = false /\
  Quat.Normalize (Quat.Normalize q) = Quat.Normalize q.
Proof.
  cbv zeta. split.
  - exact (conj Norm_wxyz_2 eq_refl).
  - exact (Normalize_unit _ Norm_wxyz_2 eq_refl).
Defined.

(** X14 at the half turn about the x axis and the exponent 1/2. *)
Lemma pow_de_Moivre_witness :
  let q := Quat.Quaternion_wxyz 0 1 0 0 in
  (Quat.Norm q = 1 /\ m_v q <> Vec.zero) /\
  Quat.pow q (1 / 2)
  = Quat.Quaternion_wv
      (cos (1 / 2 * acos (m_w q)))
      (Vec.scale (sin (1 / 2 * acos (m_w q)))
                 (Vec.div (m_v q) (Vec.Norm (m_v q)))).
Proof.
  cbv zeta. split.
  - exact (conj Norm_wxyz_unit_x x_axis_nonzero).
  - exact (pow_de_Moivre _ (1 / 2) Norm_wxyz_unit_x x_axis_nonzero).
Defined.

(** X15 at the real quaternion -1 and the exponent 1/2. *)
Lemma pow_real_witness :
  (-1 <> 0 /\ Rabs (-1) = 1) /\
  Quat.pow (Quat.Quaternion_w (-1)) (1 / 2)
  = Quat.Quaternion_w (Rpower (Rabs (-1)) (1 / 2)) /\
  Quat.pow (Quat.Quaternion_w (-1)) (1 / 2) = Quat.Quaternion_w 1.
Proof.
  assert (Hne : -1 <> 0) by lra.
  assert (Habs : Rabs (-1) = 1)
    by (unfold Rabs; destruct (Rcase_abs (-1)); lra).
  split; [exact (conj Hne Habs) |].
  destruct (pow_real (-1) (1 / 2) Hne) as [H1 H2].
  exact (conj H1 (H2 Habs)).
Defined.

(** X16 at the half turn about the x axis. *)
Lemma pow_unit_norm_witness :
  Quat.Norm (Quat.Quaternion_wxyz 0 1 0 0) = 1 /\
  Quat.Norm (Quat.pow (Quat.Quaternion_wxyz 0 1 0 0) (1 / 3)) = 1.
Proof.
  split; [exact Norm_wxyz_unit_x |].
  exact (pow_unit_norm _ (1 / 3) Norm_wxyz_unit_x).
Defined.

(** X17 at the half turn about the x axis. *)
Lemma pow_add_witness :
  let q := Quat.Quaternion_wxyz 0 1 0 0 in
  Quat.Norm q = 1 /\
  Quat.mul (Quat.pow q (1 / 3)) (Quat.pow q (1 / 2))
  = Quat.pow q (1 / 3 + 1 / 2).
Proof.
  cbv zeta. split; [exact Norm_wxyz_unit_x |].
  exact (pow_add _ (1 / 3) (1 / 2) Norm_wxyz_unit_x).
Defined.

(** X18 between the identity and the half turn about the x axis. *)
Lemma SLERP_unit_norm_witness :
  let q1 := identity_rotation in
  let q2 := Quat.Quaternion_wxyz 0 1 0 0 in
  (Quat.Norm q1 = 1 /\ Quat.Norm q2 = 1) /\
  Quat.Norm (Quat.SLERP q1 q2 (1 / 2)) = 1.
Proof.
  cbv zeta. split; [exact (conj identity_rotation_norm Norm_wxyz_unit_x) |].
  exact (SLERP_unit_norm _ _ (1 / 2) identity_rotation_norm
           Norm_wxyz_unit_x).
Defined.

(** X19 at the half turn about the x axis. *)
Lemma SLERP_same_witness :
  let q := Quat.Quaternion_wxyz 0 1 0 0 in
  Quat.Norm q = 1 /\ Quat.eqb (Quat.SLERP q q (1 / 2)) q = true.
Proof.
  cbv zeta. split; [exact Norm_wxyz_unit_x |].
  exact (SLERP_same _ (1 / 2) Norm_wxyz_unit_x).
Defined.

(** X20 at the axis [(0, 0, 2)] and the angle 1. *)
Lemma QuaternionFromAngleAxis_unit_witness :
  let u := mkVectorCartesian 0 0 2 in
  Vec.Norm u <> 0 /\
  Quat.Norm (Quat.QuaternionFromAngleAxis 1 u) = 1 /\
  m_isNormalized (Quat.QuaternionFromAngleAxis 1 u) = false /\
  Quat.Rotation (Quat.QuaternionFromAngleAxis 1 u) u = u.
Proof.
  cbv zeta. split; [exact z_axis_norm |].
  exact (QuaternionFromAngleAxis_unit 1 _ z_axis_norm).
Defined.

(** X21 at the identity. *)
Lemma AverageAngularVelocity_neg_witness :
  (Quat.Norm identity_rotation = 1 /\ 0 < 1 / 25) /\
  Quat.AverageAngularVelocity identity_rotation
    (Quat.neg identity_rotation) (1 / 25) = Vec.zero.
Proof.
  assert (HdT : 0 < 1 / 25) by lra.
  split; [exact (conj identity_rotation_norm HdT) |].
  exact (AverageAngularVelocity_neg _ (1 / 25) identity_rotation_norm HdT).
Defined.

(** X30 at the half turn about the x axis. *)
Lemma Exp_Log_witness :
  let q := Quat.Quaternion_wxyz 0 1 0 0 in
  (m_v q <> Vec.zero /\ Quat.Norm q = 1) /\
  Quat.Exp (Quat.Log q)
  = Quat.Quaternion_wv (m_w q) (Vec.div (m_v q) (Quat.Norm q)) /\
  Quat.eqb (Quat.Exp (Quat.Log q)) q = true.
Proof.
  cbv zeta. split; [exact (conj x_axis_nonzero Norm_wxyz_unit_x) |].
  destruct (Exp_Log (Quat.Quaternion_wxyz 0 1 0 0) x_axis_nonzero)
    as [H1 H2].
  exact (conj H1 (H2 Norm_wxyz_unit_x)).
Defined.

Lemma two_tiles_new :
  AdaptionUnit.new two_tiles = Some two_tiles_unit.
Proof. reflexivity. Qed.


Lemma single_tile_centre :
  AdaptionUnit.mapCoordToTile single_tile_unit
    (AdaptionUnit.mkNormalizedCoordinate (1 / 2) (1 / 2)) = Some 0%Z.
Proof. apply single_tile_resolves; cbn; lra. Qed.

(** X22 at the one-tile layout. *)
Lemma samplePoints_grid_witness :
  AdaptionUnit.new single_tile = Some single_tile_unit /\
  length (AdaptionUnit.samplePoints single_tile_unit) = 81%nat /\
  (forall i j, (i <= 8)%nat -> (j <= 8)%nat ->
     AdaptionUnit.samplePoints single_tile_unit !! (i * 9 + j)%nat
     = Some (AdaptionUnit.mkNormalizedCoordinate (INR i / 8) (INR j / 8))) /\
  (forall p, In p (AdaptionUnit.samplePoints single_tile_unit) ->
     0 <= AdaptionUnit.x p <= 1 /\ 0 <= AdaptionUnit.y p <= 1).
Proof.
  split; [exact single_tile_new |].
  exact (samplePoints_grid single_tile single_tile_unit single_tile_new).
Defined.

(** X23 at the one-tile layout and the centre of the frame. *)
Lemma mapCoordToTile_least_witness :
  let c := AdaptionUnit.mkNormalizedCoordinate (1 / 2) (1 / 2) in
  (AdaptionUnit.new single_tile = Some single_tile_unit /\
   AdaptionUnit.mapCoordToTile single_tile_unit c = Some 0%Z) /\
  (0 <= 0 < Z.of_nat (length single_tile))%Z /\
  exists kx col ky,
    In (kx, col) (AdaptionUnit.normalizedCoordTileMapping single_tile_unit) /\
    AdaptionUnit.x c <= kx /\
    (forall e,
        In e (AdaptionUnit.normalizedCoordTileMapping single_tile_unit) ->
        AdaptionUnit.x c <= fst e -> kx <= fst e) /\
    In (ky, 0%Z) col /\
    AdaptionUnit.y c <= ky /\
    (forall e, In e col -> AdaptionUnit.y c <= fst e -> ky <= fst e).
Proof.
  cbv zeta. split; [exact (conj single_tile_new single_tile_centre) |].
  exact (mapCoordToTile_least single_tile single_tile_unit _ 0%Z
           single_tile_new single_tile_centre).
Defined.

(** X25 at a layout of two tiles side by side. *)
Lemma last_tile_at_corner_witness :
  AdaptionUnit.new ([DASH.mkSRD 0 0 1 1 2 1] ++ [DASH.mkSRD 1 0 1 1 2 1])
  = Some two_tiles_unit /\
  AdaptionUnit.mapCoordToTile two_tiles_unit
    (recorded_corner ([DASH.mkSRD 0 0 1 1 2 1] ++ [DASH.mkSRD 1 0 1 1 2 1])
       (DASH.mkSRD 1 0 1 1 2 1))
  = Some (Z.of_nat (length [DASH.mkSRD 0 0 1 1 2 1])).
Proof.
  split; [exact two_tiles_new |].
  exact (last_tile_at_corner [DASH.mkSRD 0 0 1 1 2 1]
           (DASH.mkSRD 1 0 1 1 2 1) two_tiles_unit two_tiles_new).
Defined.


(** X27 at the one-tile layout. *)
Lemma computeTileVisibility_defined_witness :
  AdaptionUnit.new single_tile = Some single_tile_unit /\
  ((exists h,
       @AdaptionUnit.computeTileVisibility spherical_example
         single_tile_unit identity_rotation = Some h) <->
   forall p, In p (AdaptionUnit.samplePoints single_tile_unit) ->
     exists t,
       AdaptionUnit.mapCoordToTile single_tile_unit
         (@AdaptionUnit.fromViewportCoordToEquirectCoord spherical_example
            identity_rotation p) = Some t).
Proof.
  split; [exact single_tile_new |].
  exact (computeTileVisibility_defined spherical_example single_tile
           single_tile_unit identity_rotation single_tile_new).
Defined.

(** X28 at the one-tile layout. *)
Lemma computeTileVisibility_landing_witness :
  let h : gmap Z Z := {[ 0%Z := 81%Z ]} in
  (AdaptionUnit.new single_tile = Some single_tile_unit /\
   @AdaptionUnit.computeTileVisibility spherical_example single_tile_unit
     identity_rotation = Some h) /\
  (forall tile,
     default 0%Z (h !! tile)
     = Z.of_nat (@landing spherical_example single_tile_unit
                   identity_rotation tile
                   (AdaptionUnit.samplePoints single_tile_unit))) /\
  (forall tile count,
     h !! tile = Some count ->
     (0 <= tile < Z.of_nat (length single_tile))%Z).
Proof.
  cbv zeta. split.
  - exact (conj single_tile_new (single_tile_visibility identity_rotation)).
  - exact (computeTileVisibility_landing spherical_example single_tile
             single_tile_unit identity_rotation _ single_tile_new
             (single_tile_visibility identity_rotation)).
Defined.

Lemma single_tile_corner :
  1 <= AdaptionUnit.x (recorded_corner [DASH.mkSRD 0 0 1 1 1 1]
                         (DASH.mkSRD 0 0 1 1 1 1)) /\
  1 <= AdaptionUnit.y (recorded_corner [DASH.mkSRD 0 0 1 1 1 1]
                         (DASH.mkSRD 0 0 1 1 1 1)).
Proof.
  change (1 <= 1 / 1 /\ 1 <= 1 / 1). lra.
Qed.

(** X29 at the one-tile layout. *)
Lemma one_tile_histogram_witness :
  ((forall v, - PI <= @GetTheta spherical_example v) /\
   (forall v, @GetPhi spherical_example v <= PI) /\
   AdaptionUnit.new [DASH.mkSRD 0 0 1 1 1 1] = Some single_tile_unit /\
   1 <= AdaptionUnit.x (recorded_corner [DASH.mkSRD 0 0 1 1 1 1]
                          (DASH.mkSRD 0 0 1 1 1 1)) /\
   1 <= AdaptionUnit.y (recorded_corner [DASH.mkSRD 0 0 1 1 1 1]
                          (DASH.mkSRD 0 0 1 1 1 1))) /\
  @AdaptionUnit.computeTileVisibility spherical_example single_tile_unit
    identity_rotation = Some {[ 0%Z := 81%Z ]}.
Proof.
  split.
  - exact (conj spherical_example_theta
             (conj spherical_example_phi
                (conj single_tile_new single_tile_corner))).
  - exact (one_tile_histogram spherical_example (DASH.mkSRD 0 0 1 1 1 1)
             single_tile_unit identity_rotation
             spherical_example_theta spherical_example_phi single_tile_new
             (proj1 single_tile_corner) (proj2 single_tile_corner)).
Defined.

(** * The sum property on a layout that is not a grid *)

Lemma irregular_new :
  AdaptionUnit.new irregular_tiles = Some irregular_unit.
Proof. reflexivity. Qed.

Lemma irregular_mapping :
  AdaptionUnit.normalizedCoordTileMapping irregular_unit
  = [(1 / 2, [(1 / 4, 0%Z)]); (2 / 2, [(1 / 4, 1%Z); (4 / 4, 2%Z)])].
Proof.
  unfold irregular_unit, irregular_tiles.
  cbn [AdaptionUnit.normalizedCoordTileMapping AdaptionUnit.fill_mapping
       DASH.x DASH.y DASH.w DASH.h].
  unfold AdaptionUnit.assign_tile. eval_index. reflexivity.
Qed.

Lemma irregular_boundaries :
  boundaries_reach_one (AdaptionUnit.normalizedCoordTileMapping irregular_unit).
Proof.
  rewrite irregular_mapping. split.
  - apply List.Exists_cons_tl, List.Exists_cons_hd. cbn [fst]. lra.
  - apply List.Exists_cons_tl, List.Exists_cons_hd. cbn [snd].
    apply List.Exists_cons_tl, List.Exists_cons_hd. cbn [fst]. lra.
Qed.

(** The coordinate [(1/4, 1/2)] selects the column of the X boundary 1/2,
    whose only Y boundary is 1/4. *)
Lemma irregular_centre_unresolved :
  AdaptionUnit.mapCoordToTile irregular_unit
    (AdaptionUnit.mkNormalizedCoordinate (1 / 4) (1 / 2)) = None.
Proof.
  unfold AdaptionUnit.mapCoordToTile. rewrite irregular_mapping.
  unfold StdMap.lower_bound. cbn [AdaptionUnit.x AdaptionUnit.y].
  cbn [List.find fst]. rewrite (Rltb_false (1 / 2) (1 / 4)) by lra.
  cbn [negb List.find fst]. rewrite (Rltb_true (1 / 4) (1 / 2)) by lra.
  reflexivity.
Qed.

Lemma centre_ray (p : AdaptionUnit.NormalizedCoordinate) :
  AdaptionUnit.x p = 1 / 2 -> AdaptionUnit.y p = 1 / 2 ->
  AdaptionUnit.coordBefRot p = mkVectorCartesian 1 0 0.
Proof.
  intros Hx Hy. unfold AdaptionUnit.coordBefRot. rewrite Hx, Hy.
  replace (1 / 2 - 0.5) with 0 by lra. replace (0.5 - 1 / 2) with 0 by lra.
  rewrite !Rmult_0_l.
  assert (Hn : Vec.Norm (mkVectorCartesian 1 0 0) = 1).
  { apply Vec_norm_1_dot. unfold_algebra. ring. }
  rewrite Hn. unfold_algebra. f_equal; field.
Qed.

Lemma Rotation_identity (v : VectorCartesian) :
  Quat.Rotation identity_rotation v = v.
Proof.
  rewrite Rotation_valid;
    [| rewrite identity_rotation_norm; lra | discriminate].
  destruct v as [a b c]. unfold identity_rotation. unfold_algebra.
  f_equal; field.
Qed.

Lemma fmod_three_quarters : Cmath.fmod 0.75 1.0 = 3 / 4.
Proof.
  unfold Cmath.fmod, Cmath.trunc. rewrite Rltb_false by lra.
  rewrite (Zfloor_eq 0) by lra. lra.
Qed.

(** With the usual spherical formulas and the identity orientation the
    centre of the viewport is sent to [(1/4, 1/2)]. *)
Lemma centre_equirect (p : AdaptionUnit.NormalizedCoordinate) :
  AdaptionUnit.x p = 1 / 2 -> AdaptionUnit.y p = 1 / 2 ->
  @AdaptionUnit.fromViewportCoordToEquirectCoord spherical_example
    identity_rotation p
  = AdaptionUnit.mkNormalizedCoordinate (1 / 4) (1 / 2).
Proof.
  intros Hx Hy. unfold AdaptionUnit.fromViewportCoordToEquirectCoord.
  rewrite (centre_ray p Hx Hy), Rotation_identity.
  cbn [GetTheta GetPhi spherical_example GetX GetY GetZ].
  unfold Cmath.atan2. rewrite Rltb_true by lra.
  replace (0 / 1) with 0 by field. rewrite atan_0.
  replace (0 / Vec.Norm (mkVectorCartesian 1 0 0)) with 0
    by (unfold Rdiv; ring).
  rewrite acos_0. unfold AdaptionUnit.PI.
  replace (0.75 + 0 / (2.0 * PI)) with 0.75 by (unfold Rdiv; lra).
  rewrite fmod_three_quarters.
  f_equal; [lra |]. field. apply PI_neq0.
Qed.

Lemma centre_sample (au : AdaptionUnit.AdaptionUnit) :
  AdaptionUnit.samplePoints au = AdaptionUnit.fill_samples ->
  exists p, AdaptionUnit.samplePoints au !! 40%nat = Some p /\
            AdaptionUnit.x p = 1 / 2 /\ AdaptionUnit.y p = 1 / 2.
Proof.
  intros ->.
  exists (AdaptionUnit.mkNormalizedCoordinate
            (INR 4 * (1.0 / INR AdaptionUnit.SAMPLERES))
            (INR 4 * (1.0 / INR AdaptionUnit.SAMPLERES))).
  split; [reflexivity |]. cbn [AdaptionUnit.x AdaptionUnit.y].
  rewrite INR_SAMPLERES.
  replace (INR 4) with 4 by (rewrite INR_IZR_INZ; reflexivity).
  split; lra.
Qed.

(** C2 fails as stated: the layout of two tiles of 1 x 1 over one tile of
    2 x 3 records boundaries that reach 1.0 in both axes, yet with the usual
    spherical formulas and the identity orientation the centre sample has
    no tile, and no histogram is returned. *)
Lemma computeTileVisibility_total_not_flat :
  ((forall v, - PI <= @GetTheta spherical_example v) /\
   (forall v, @GetPhi spherical_example v <= PI) /\
   irregular_tiles <> [] /\
   AdaptionUnit.new irregular_tiles = Some irregular_unit /\
   boundaries_reach_one
     (AdaptionUnit.normalizedCoordTileMapping irregular_unit)) /\
  @AdaptionUnit.computeTileVisibility spherical_example irregular_unit
    identity_rotation = None /\
  ~ (exists h,
        @AdaptionUnit.computeTileVisibility spherical_example irregular_unit
          identity_rotation = Some h /\
        AdaptionUnit.total h = 81%Z).
Proof.
  assert (Hnone : @AdaptionUnit.computeTileVisibility spherical_example
                    irregular_unit identity_rotation = None).
  { destruct (@AdaptionUnit.computeTileVisibility spherical_example
                irregular_unit identity_rotation) as [h |] eqn:Hh;
      [| reflexivity].
    exfalso. unfold AdaptionUnit.computeTileVisibility in Hh.
    destruct (@visibility_loop_samples spherical_example irregular_unit
                identity_rotation _ _ _ _ Hh 40%nat)
      as (p & t & Hp & Ht).
    { unfold AdaptionUnit.SAMPLEPOINTS, AdaptionUnit.SAMPLERES. cbn. lia. }
    destruct (centre_sample irregular_unit eq_refl) as (p' & Hp' & Hx & Hy).
    rewrite Hp' in Hp. injection Hp as ->.
    rewrite (centre_equirect p Hx Hy), irregular_centre_unresolved in Ht.
    discriminate. }
  split; [| split].
  - assert (Hne : irregular_tiles <> []) by discriminate.
    exact (conj spherical_example_theta
             (conj spherical_example_phi
                (conj Hne (conj irregular_new irregular_boundaries)))).
  - exact Hnone.
  - intros [h [Hh _]]. rewrite Hnone in Hh. discriminate.
Qed.
